(** * Motion SDK mock server: framing codec, session handler, jitter transmitter

    Shallow embedding of [test/mock_sdk_server.py] and [test/test_server.py]
    (class [Handler]).  The two files differ only in the bytes of the device
    list; the handler is parameterised by the file it is taken from.

    The socket, the random source and the clock are the handler's
    environment.  They are kept in an explicit [world] that every operation
    threads through a small state-and-exception monad:
    - [inbox]: the segments the peer has sent, in arrival order; one
      [recv(n)] returns at most [n] bytes of the first segment and [b''] at
      end of stream;
    - [send_script]: the outcome of each coming [sendall] call ([None] for
      success, an exception otherwise; success once exhausted);
    - [rng], [draws]: the raw values of the random source and how many were
      consumed; [randint a b] maps a raw value into [a..b];
    - [trace]: every socket call and sleep, in program order. *)

From Stdlib Require Import List Arith NArith ZArith Lia Bool.
From Stdlib Require Import Strings.Byte Strings.String.
Import ListNotations.

Local Open Scope list_scope.

Definition bytes := list byte.

(** Python's [len] on a byte string. *)
Definition len (b : bytes) : N := N.of_nat (List.length b).

(** A Python bytes literal without quote characters. *)
Definition lit (s : string) : bytes := list_byte_of_string s.

(** The ASCII double quote. *)
Definition dq : bytes := [x22].

(** ** Exceptions the handler can meet *)

Inductive exn : Type :=
| BrokenPipeError
| ConnectionAbortedError
| ConnectionResetError
| AttributeError
| UnboundLocalError
| StructError.

Inductive res (A : Type) : Type :=
| Val (a : A)
| Exc (e : exn).
Arguments Val {A} a.
Arguments Exc {A} e.

(** ** The [struct] module, as far as the handler uses it *)

Module Struct.

(** Native byte order of the machine running the server (formats without
    a leading [!]). *)
Inductive byte_order : Type := LittleEndian | BigEndian.

Definition byte_of_N (n : N) : byte :=
  match Byte.of_N (n mod 256) with
  | Some b => b
  | None => x00
  end.

(** [w] bytes of [v], least significant first. *)
Fixpoint le_bytes (w : nat) (v : N) : bytes :=
  match w with
  | O => []
  | S w' => byte_of_N v :: le_bytes w' (v / 256)
  end.

Definition be_bytes (w : nat) (v : N) : bytes := rev (le_bytes w v).

Definition ordered (o : byte_order) (w : nat) (v : N) : bytes :=
  match o with
  | LittleEndian => le_bytes w v
  | BigEndian => be_bytes w v
  end.

(** Value of a big-endian byte string. *)
Definition be_value (bs : bytes) : N :=
  fold_left (fun acc b => (acc * 256 + Byte.to_N b)%N) bs 0%N.

(** [struct.pack("!I", v)]: [struct.error] outside [0 .. 2^32-1]. *)
Definition pack_I_be (v : N) : res bytes :=
  if (v <? 2 ^ 32)%N then Val (be_bytes 4 v) else Exc StructError.

(** [struct.unpack("!I", header)[0]] on a 4-byte header. *)
Definition unpack_I_be (header : bytes) : N := be_value header.

(** IEEE-754 binary32 bit pattern of a non-negative integer below [2^24]
    (every such integer is exactly representable). *)
Definition float32_bits (n : N) : N :=
  match n with
  | N0 => 0%N
  | _ => let e := N.log2 n in
         ((127 + e) * 2 ^ 23 + (n - 2 ^ e) * 2 ^ (23 - e))%N
  end.

(** Fields of the constant records packed by the handler.  Every constant
    in the source is within its field's range, so these never raise. *)
Definition field_I (o : byte_order) (v : N) : bytes := ordered o 4 v.
Definition field_h (o : byte_order) (v : N) : bytes := ordered o 2 v.
Definition field_f (o : byte_order) (v : N) : bytes :=
  ordered o 4 (float32_bits v).

End Struct.

(** ** The world and the monad *)

Inductive event : Type :=
| EvSend (data : bytes) (outcome : option exn)
| EvRecv (n : nat) (got : bytes)
| EvSleep (micros : Z).

Record world : Type := mkWorld {
  inbox : list bytes;
  send_script : list (option exn);
  rng : nat -> nat;
  draws : nat;
  trace : list event
}.

Definition M (A : Type) : Type := world -> res A * world.

Definition ret {A} (a : A) : M A := fun w => (Val a, w).

Definition raise {A} (e : exn) : M A := fun w => (Exc e, w).

Definition bind {A B} (m : M A) (f : A -> M B) : M B :=
  fun w =>
    match m w with
    | (Val a, w') => f a w'
    | (Exc e, w') => (Exc e, w')
    end.

Notation "x <- m ;; k" := (bind m (fun x => k))
  (at level 61, m at next level, right associativity).
Notation "m ;;; k" := (bind m (fun _ => k))
  (at level 61, right associativity).

(** [try: m except BrokenPipeError / ConnectionAbortedError]: the two
    exceptions the source catches become [inr]; any other propagates. *)
Definition try_send {A} (m : M A) : M (A + exn) :=
  fun w =>
    match m w with
    | (Val a, w') => (Val (inl a), w')
    | (Exc BrokenPipeError, w') => (Val (inr BrokenPipeError), w')
    | (Exc ConnectionAbortedError, w') => (Val (inr ConnectionAbortedError), w')
    | (Exc e, w') => (Exc e, w')
    end.

Definition lift {A} (r : res A) : M A := fun w => (r, w).

Definition log (e : event) (w : world) : world :=
  mkWorld (inbox w) (send_script w) (rng w) (draws w) (trace w ++ [e]).

(** ** Environment operations *)

(** [self.request.recv(n)].  A read that raises (a connection reset, say)
    is not modelled; [read_message] has no [try] around its reads. *)
Definition recv (n : nat) : M bytes :=
  fun w =>
    match inbox w with
    | [] => (Val [], log (EvRecv n []) w)
    | c :: rest =>
        let got := firstn n c in
        let left := skipn n c in
        let inbox' := match left with [] => rest | _ => left :: rest end in
        (Val got,
         log (EvRecv n got)
           (mkWorld inbox' (send_script w) (rng w) (draws w) (trace w)))
    end.

(** [self.request.sendall(data)].  A failed call is taken to deliver
    nothing. *)
Definition sendall (data : bytes) : M unit :=
  fun w =>
    match send_script w with
    | [] => (Val tt, log (EvSend data None) w)
    | o :: rest =>
        let w' := log (EvSend data o)
                    (mkWorld (inbox w) rest (rng w) (draws w) (trace w)) in
        match o with
        | None => (Val tt, w')
        | Some e => (Exc e, w')
        end
    end.

(** [time.sleep], in microseconds. *)
Definition sleep (micros : Z) : M unit :=
  fun w => (Val tt, log (EvSleep micros) w).

(** Value [random.randint(a, b)] yields from the raw draw [r]
    (with [a <= b]). *)
Definition randint_value (r a b : nat) : nat := a + r mod (b - a + 1).

Definition randint (a b : nat) : M nat :=
  fun w =>
    (Val (randint_value (rng w (draws w)) a b),
     mkWorld (inbox w) (send_script w) (rng w) (S (draws w)) (trace w)).

(** ** [bytes.find] and slicing *)

Fixpoint starts_with (sub s : bytes) : bool :=
  match sub, s with
  | [], _ => true
  | _ :: _, [] => false
  | a :: sub', b :: s' => Byte.eqb a b && starts_with sub' s'
  end.

Fixpoint find_from (i : Z) (sub s : bytes) : Z :=
  if starts_with sub s then i
  else match s with
       | [] => (-1)%Z
       | _ :: s' => find_from (i + 1) sub s'
       end.

(** [s.find(sub)]: lowest index of [sub] in [s], or [-1]. *)
Definition find (s sub : bytes) : Z := find_from 0 sub s.

(** [msg[j:n]]. *)
Definition slice (msg : bytes) (j n : nat) : bytes :=
  firstn (n - j) (skipn j msg).

(** ** Frame codec *)

(** [Handler.make_message]:
    [struct.pack("!I" + str(length) + "s", length, data)]. *)
Definition make_message (data : bytes) : res bytes :=
  let length := len data in
  match Struct.pack_I_be length with
  | Val header => Val (header ++ data)
  | Exc e => Exc e
  end.

(** [Handler.read_message]; Python's [None] is [None]. *)
Definition read_message : M (option bytes) :=
  header <- recv 4 ;;
  if negb (List.length header =? 4) then ret None
  else
    let length := Struct.unpack_I_be header in
    if ((length <=? 0) || (65535 <? length))%N then ret None
    else
      message <- recv (N.to_nat length) ;;
      if negb (len message =? length)%N then ret None
      else ret (Some message).

(** [Handler.write_message]. *)
Definition write_message (data : bytes) : M bool :=
  r <- try_send (m <- lift (make_message data) ;; sendall m) ;;
  match r with
  | inl _ => ret true
  | inr _ => ret false
  end.

(** ** Session handler *)

(** Which of the two source files the handler is read from. *)
Inductive source_file : Type := MockSdkServer | TestServer.

(** First [if]/[elif] chain of [handle]: [(name, is_configurable)]. *)
Definition service (port : N) : bytes * bool :=
  if (port =? 32079)%N then (lit "preview", false)
  else if (port =? 32078)%N then (lit "sensor", false)
  else if (port =? 32077)%N then (lit "raw", false)
  else if (port =? 32076)%N then (lit "configurable", true)
  else if (port =? 32075)%N then (lit "console", false)
  else (lit "test", true).

Definition xml_decl : bytes :=
  lit "<?xml version=" ++ dq ++ lit "1.0" ++ dq ++ lit "?>".

(** The identity document; both files produce the same bytes. *)
Definition identity (name : bytes) : bytes :=
  xml_decl ++ lit "<service name=" ++ dq ++ name ++ dq ++ lit "/>".

Definition id_Node : bytes := lit "id=" ++ dq ++ lit "Node" ++ dq.
Definition key_1 : bytes := lit "key=" ++ dq ++ lit "1" ++ dq.

Definition device_list (f : source_file) : bytes :=
  match f with
  | MockSdkServer =>
      xml_decl
      ++ lit "<node id=" ++ dq ++ lit "default" ++ dq
      ++ lit " key=" ++ dq ++ lit "0" ++ dq ++ lit ">"
      ++ lit "<node " ++ id_Node ++ lit " " ++ key_1 ++ lit "/></node>"
  | TestServer =>
      xml_decl
      ++ lit "<node><node " ++ id_Node ++ lit " " ++ key_1 ++ lit "/></node>"
  end.

Section Handler.

(** Native byte order of the host and the source file in use. *)
Variable native : Struct.byte_order.
Variable file : source_file.

Let pack_I := Struct.field_I native.
Let pack_h := Struct.field_h native.
Let pack_f := Struct.field_f native.

(** Canned sample of the five data services ([None] on the other
    ports, where the second chain takes its [else] branch). *)
Definition canned (port : N) : option bytes :=
  if (port =? 32079)%N then
    Some (pack_I 1
          ++ List.concat (map pack_f [10; 11; 12; 13; 14; 15; 16; 17; 18;
                                      19; 20; 21; 22; 23]%N))
  else if (port =? 32078)%N then
    Some (pack_I 1
          ++ List.concat (map pack_f [10; 11; 12; 13; 14; 15; 16; 17; 18]%N))
  else if (port =? 32077)%N then
    Some (pack_I 1
          ++ List.concat (map pack_h [10; 11; 12; 13; 14; 15; 16; 17; 18]%N))
  else if (port =? 32076)%N then
    Some (pack_I 1 ++ pack_I 8
          ++ List.concat (map pack_f [10; 11; 12; 13; 14; 15; 16; 17]%N))
  else if (port =? 32075)%N then
    Some (x00 :: lit "true" ++ [x0a])
  else None.

(** [struct.pack("!I2I3f", length, 1, 8, 10, 11, 12)]. *)
Definition pack_bad_frame (length : N) : bytes :=
  Struct.be_bytes 4 length ++ Struct.be_bytes 4 1 ++ Struct.be_bytes 4 8
  ++ List.concat (map (Struct.field_f Struct.BigEndian) [10; 11; 12]%N).

(** The [if]/[elif] chain that binds [buf]; no branch taken leaves [buf]
    unbound and the following [sendall(buf)] raises. *)
Definition select_reply (msg : bytes) : res bytes :=
  if negb (find msg (lit "header") =? -1)%Z then Val (pack_h 1)
  else if negb (find msg (lit "payload") =? -1)%Z then
    Val (pack_bad_frame 40)
  else if negb (find msg (lit "length") =? -1)%Z then
    Val (pack_bad_frame 65536)
  else if negb (find msg (lit "xml") =? -1)%Z then
    make_message (lit "<?xm")
  else Exc UnboundLocalError.

(** How a run of [handle] ended when no exception escaped. *)
Inductive outcome : Type :=
| StreamCompleted      (* the [for] loop ran to its end *)
| WriteAborted         (* [return] in an [except] clause of the loop *)
| DiagnosticDone       (* [return] at the end of the diagnostic branch *)
| OutOfFuel.           (* the [while] loop was cut by the model's fuel *)

(** The diagnostic [else] branch; [msg] is what [read_message]
    returned ([is_configurable] is always true on this branch, so [msg] is
    bound). *)
Definition diagnostic (msg : option bytes) : M outcome :=
  match msg with
  | None => raise AttributeError
  | Some m =>
      buf <- lift (select_reply m) ;;
      sendall buf ;;;
      (if negb (find m (lit "timeout") =? -1)%Z
       then (_ <- read_message ;; ret tt)
       else sleep 250000) ;;;
      ret DiagnosticDone
  end.

Inductive loop_exit : Type :=
| LoopDone (dt : Z)
| LoopReturn
| LoopFuel.

(** [while j < len(msg): ...]; [dt] in microseconds. *)
Fixpoint chunk_loop (fuel : nat) (msg : bytes) (j : nat) (dt : Z)
  : M loop_exit :=
  if j <? List.length msg then
    match fuel with
    | O => ret LoopFuel
    | S fuel' =>
        n <- randint j (List.length msg) ;;
        r <- try_send (sendall (slice msg j n)) ;;
        match r with
        | inr _ => ret LoopReturn
        | inl _ =>
            sleep 1000 ;;;
            chunk_loop fuel' msg n (dt + 1000)
        end
    end
  else ret (LoopDone dt).

(** Body of the [for] loop. *)
Definition stream_iteration (fuel : nat) (data : bytes) : M loop_exit :=
  msg <- lift (make_message data) ;;
  k <- randint 1 5 ;;
  let msg := List.concat (repeat msg k) in
  r <- chunk_loop fuel msg 0 0 ;;
  match r with
  | LoopDone dt =>
      let dt := (10000 - dt)%Z in
      (if (0 <? dt)%Z then sleep dt else ret tt) ;;;
      ret (LoopDone dt)
  | _ => ret r
  end.

(** [for i in range(0, iters)]. *)
Fixpoint stream_loop (fuel iters : nat) (data : bytes) : M outcome :=
  match iters with
  | O => ret StreamCompleted
  | S iters' =>
      r <- stream_iteration fuel data ;;
      match r with
      | LoopDone _ => stream_loop fuel iters' data
      | LoopReturn => ret WriteAborted
      | LoopFuel => ret OutOfFuel
      end
  end.

(** [Handler.handle] on a server bound to [port].  [fuel] bounds each
    run of the [while] loop. *)
Definition handle (fuel : nat) (port : N) : M outcome :=
  let (name, is_configurable) := service port in
  write_message (identity name) ;;;
  msg <- (if is_configurable then read_message else ret None) ;;
  write_message (device_list file) ;;;
  match canned port with
  | Some data => stream_loop fuel 100 data
  | None => diagnostic msg
  end.

End Handler.

(** ** Observations on a trace *)

(** Payloads handed to [sendall], in call order. *)
Fixpoint attempts (t : list event) : list bytes :=
  match t with
  | [] => []
  | EvSend d _ :: t' => d :: attempts t'
  | _ :: t' => attempts t'
  end.

(** Bytes put on the wire: the payloads of the successful [sendall]s. *)
Fixpoint wire (t : list event) : bytes :=
  match t with
  | [] => []
  | EvSend d None :: t' => d ++ wire t'
  | _ :: t' => wire t'
  end.

(** No [sendall] is scripted to fail. *)
Definition failure_free (w : world) : Prop :=
  Forall (fun o => o = None) (send_script w).

Definition production (port : N) : Prop :=
  In port [32075; 32076; 32077; 32078; 32079]%N.

(** [sub] occurs in [s]. *)
Definition contains (s sub : bytes) : Prop :=
  exists pre post, s = pre ++ sub ++ post.

(** Number of positions of [s] at which [sub] starts. *)
Fixpoint occurrences (sub s : bytes) : nat :=
  (if starts_with sub s then 1 else 0)
  + match s with
    | [] => 0
    | _ :: s' => occurrences sub s'
    end.

(** ** Short reads *)

(** The header read of [read_message] comes up short in [w]. *)
Definition header_short (w : world) : Prop :=
  exists header w1,
    recv 4 w = (Val header, w1) /\ List.length header <> 4.

(** The header is complete and names an accepted length, but the body read
    returns fewer bytes than declared. *)
Definition body_short (w : world) : Prop :=
  exists header w1 message w2,
    recv 4 w = (Val header, w1) /\ List.length header = 4 /\
    (1 <= Struct.unpack_I_be header <= 65535)%N /\
    recv (N.to_nat (Struct.unpack_I_be header)) w1 = (Val message, w2) /\
    (len message < Struct.unpack_I_be header)%N.

(** ** Sample worlds *)

(** A quiet environment: nothing scripted to fail, raw draws all [r]. *)
Definition world_of (segments : list bytes) (r : nat) : world :=
  mkWorld segments [] (fun _ => r) 0 [].

(** Header announcing 5 bytes, 2 of which arrive before end of stream. *)
Definition short_body_world : world :=
  world_of [[x00; x00; x00; x05; x61; x62]] 0.

(** End of stream after 2 header bytes. *)
Definition short_header_world : world := world_of [[x00; x00]] 0.

(** ** Vocabulary of the statements *)

(** A length-prefixed frame: 4-byte big-endian length, then the body. *)
Definition frame (body : bytes) : bytes :=
  Struct.be_bytes 4 (len body) ++ body.

(** Outcome scripted for the next [sendall]. *)
Definition next_outcome (w : world) : option exn :=
  match send_script w with
  | [] => None
  | o :: _ => o
  end.

(** The world after [sendall data]. *)
Definition sent (data : bytes) (w : world) : world :=
  mkWorld (inbox w) (tl (send_script w)) (rng w) (draws w)
    (trace w ++ [EvSend data (next_outcome w)]).

(** Outcomes on which [write_message] returns ([True] or [False]) rather
    than letting an exception escape. *)
Definition write_returns (o : option exn) : Prop :=
  match o with
  | None | Some BrokenPipeError | Some ConnectionAbortedError => True
  | Some _ => False
  end.

(** Stated from the specification: the reply of the diagnostic service is
    chosen by the first keyword, in the order header, payload, length, xml,
    that occurs in the channel list. *)
Inductive priority_reply (native : Struct.byte_order) (msg : bytes)
  : bytes -> Prop :=
| reply_header :
    contains msg (lit "header") ->
    priority_reply native msg (Struct.field_h native 1)
| reply_payload :
    ~ contains msg (lit "header") ->
    contains msg (lit "payload") ->
    priority_reply native msg (pack_bad_frame 40)
| reply_length :
    ~ contains msg (lit "header") ->
    ~ contains msg (lit "payload") ->
    contains msg (lit "length") ->
    priority_reply native msg (pack_bad_frame 65536)
| reply_xml :
    ~ contains msg (lit "header") ->
    ~ contains msg (lit "payload") ->
    ~ contains msg (lit "length") ->
    contains msg (lit "xml") ->
    priority_reply native msg (frame (lit "<?xm")).

(** A client whose only segment carries the channel list [msg] as a
    frame. *)
Definition client_sending (msg : bytes) : world :=
  world_of [frame msg] 0.

(** The world after one draw from the random source. *)
Definition drawn (w : world) : world :=
  mkWorld (inbox w) (send_script w) (rng w) (S (draws w)) (trace w).

(** [b''.join([m] * k)]. *)
Definition copies (k : nat) (m : bytes) : bytes := List.concat (repeat m k).

(** Among the first [horizon] cut points that the chunking loop draws from
    raw values [r] (the [i]-th first) at offset [j] of a buffer of [size]
    bytes, the number of those equal to the current offset.  Counting stops
    when the offset reaches [size]. *)
Fixpoint stalls (r : nat -> nat) (i j size horizon : nat) : nat :=
  match horizon with
  | O => 0
  | S horizon' =>
      if j <? size then
        let n := randint_value (r i) j size in
        (if n =? j then 1 else 0) + stalls r (S i) n size horizon'
      else 0
  end.

(** Number of cut points, at most [fuel], drawn before the offset reaches
    [size]. *)
Fixpoint loop_draws (r : nat -> nat) (i j size fuel : nat) : nat :=
  match fuel with
  | O => 0
  | S fuel' =>
      if j <? size then
        S (loop_draws r (S i) (randint_value (r i) j size) size fuel')
      else 0
  end.

(** For [iters] samples whose first draw is the [i]-th: the buffer of each
    sample ([k] frames of [flen] bytes, [k] being that sample's first draw)
    meets fewer than [fuel] minus its size stalling cut points. *)
Fixpoint session_cuts_suffice
    (r : nat -> nat) (flen fuel iters i : nat) : bool :=
  match iters with
  | O => true
  | S iters' =>
      let size := randint_value (r i) 1 5 * flen in
      (stalls r (S i) 0 size fuel + size <=? fuel)
      && session_cuts_suffice r flen fuel iters'
           (S i + loop_draws r (S i) 0 size fuel)
  end.

(** A handshake during which both writes meet a closed connection; later
    writes succeed. *)
Definition failing_handshake_world : world :=
  mkWorld [] [Some BrokenPipeError; Some ConnectionAbortedError]
    (fun i => 5 * i + 1) 0 [].

(** A random source whose every raw value is 0: [randint(a, b)] always
    returns [a]. *)
Definition stalling_world : world := world_of [] 0.

(** A random source whose every raw value is 1. *)
Definition stepping_world : world := world_of [] 1.

(** ** A client reading the wire *)

Definition bytes_eq_dec : forall a b : bytes, {a = b} + {a <> b} :=
  list_eq_dec Byte.byte_eq_dec.

(** Messages obtained by calling [read_message] again and again until it
    returns [None]. *)
Fixpoint read_all (fuel : nat) (w : world) : list bytes :=
  match fuel with
  | O => []
  | S fuel' =>
      match read_message w with
      | (Val (Some m), w') => m :: read_all fuel' w'
      | _ => []
      end
  end.

(** The messages a client gets out of the byte stream [stream] when all of
    it is available to its reads. *)
Definition received_messages (stream : bytes) : list bytes :=
  read_all (List.length stream) (world_of [stream] 0).

(** A whole session of the console service in which every cut advances by
    one byte. *)
Definition stepping_session : res outcome * world :=
  handle Struct.LittleEndian TestServer 20 32075 stepping_world.

(** ** Further observations *)

(** Sizes asked of [recv], in call order. *)
Fixpoint recvs (t : list event) : list nat :=
  match t with
  | [] => []
  | EvRecv n _ :: t' => n :: recvs t'
  | _ :: t' => recvs t'
  end.

(** Total time spent in [time.sleep], in microseconds. *)
Fixpoint slept (t : list event) : Z :=
  match t with
  | [] => 0
  | EvSleep z :: t' => z + slept t'
  | _ :: t' => slept t'
  end.

(** Every scripted [sendall] outcome is success or one of the two
    exceptions the handler catches. *)
Definition caught_only (w : world) : Prop :=
  Forall write_returns (send_script w).

(** A computation that never calls [recv]: the pending input and the list
    of reads are as before, whatever the outcome. *)
Definition reads_nothing {A : Type} (m : M A) : Prop :=
  forall w : world,
    inbox (snd (m w)) = inbox w /\
    recvs (trace (snd (m w))) = recvs (trace w).

(** A quiet world whose random source mixes short and long cuts. *)
Definition jitter_world : world :=
  mkWorld [] [] (fun i => 5 * i + 1) 0 [].

(** The trace without its [recv] events: what the handler did to the
    outside. *)
Definition outputs (t : list event) : list event :=
  filter (fun e => match e with EvRecv _ _ => false | _ => true end) t.

(** Two worlds that agree on everything but the pending input and the
    reads made so far. *)
Definition same_but_input (w1 w2 : world) : Prop :=
  send_script w1 = send_script w2 /\ rng w1 = rng w2 /\
  draws w1 = draws w2 /\ outputs (trace w1) = outputs (trace w2).

(** A computation whose result and outputs do not depend on the input. *)
Definition input_blind {A : Type} (m : M A) : Prop :=
  forall w1 w2 : world,
    same_but_input w1 w2 ->
    fst (m w1) = fst (m w2) /\ same_but_input (snd (m w1)) (snd (m w2)).

(** The world [w] with other pending input. *)
Definition with_inbox (segments : list bytes) (w : world) : world :=
  mkWorld segments (send_script w) (rng w) (draws w) (trace w).

(** A client of the configurable service: it has sent its channel list;
    no write fails and the random source mixes short and long cuts. *)
Definition configurable_client_world : world :=
  mkWorld [frame (lit "channels")] [] (fun i => 5 * i + 1) 0 [].

(** * Properties *)

(** ** Big-endian length prefix *)

Module StructFacts.
Import Struct.

Lemma to_N_byte_of_N (n : N) : Byte.to_N (byte_of_N n) = (n mod 256)%N.
Proof.
  unfold byte_of_N.
  destruct (Byte.of_N (n mod 256)) as [b|] eqn:E.
  - now apply Byte.to_of_N.
  - apply Byte.of_N_None_iff in E.
    pose proof (N.mod_upper_bound n 256). lia.
Qed.

Lemma length_le_bytes (w : nat) (v : N) : List.length (le_bytes w v) = w.
Proof.
  revert v; induction w as [|w IH]; intros v; simpl; [reflexivity|].
  now rewrite IH.
Qed.

Lemma length_be_bytes (w : nat) (v : N) : List.length (be_bytes w v) = w.
Proof. unfold be_bytes. now rewrite length_rev, length_le_bytes. Qed.

Lemma length_ordered o (w : nat) (v : N) : List.length (ordered o w v) = w.
Proof. destruct o; [apply length_le_bytes | apply length_be_bytes]. Qed.

(** Decoding the four bytes of a value below [2^32] gives it back. *)
Lemma unpack_pack_I_be (v : N) :
  (v < 2 ^ 32)%N -> unpack_I_be (be_bytes 4 v) = v.
Proof.
  intros Hv. unfold unpack_I_be, be_value, be_bytes. simpl.
  rewrite !to_N_byte_of_N.
  change (2 ^ 32)%N with 4294967296%N in Hv.
  pose proof (N.div_mod' v 256).
  pose proof (N.div_mod' (v / 256) 256).
  pose proof (N.div_mod' (v / 256 / 256) 256).
  pose proof (N.mod_upper_bound v 256).
  pose proof (N.mod_upper_bound (v / 256) 256).
  pose proof (N.mod_upper_bound (v / 256 / 256) 256).
  assert (v / 256 / 256 / 256 < 256)%N.
  { apply N.Div0.div_lt_upper_bound.
    apply N.Div0.div_lt_upper_bound.
    apply N.Div0.div_lt_upper_bound. lia. }
  rewrite (N.mod_small (v / 256 / 256 / 256) 256) by assumption.
  lia.
Qed.

End StructFacts.

(** ** Running the monad *)

Lemma recv_value (n : nat) (w : world) :
  exists got, fst (recv n w) = Val got.
Proof. unfold recv. destruct (inbox w); simpl; eauto. Qed.

(** What one [recv] finds when the first segment holds at least the
    requested bytes. *)
Lemma recv_buffered (got more : bytes) (rest : list bytes) (w : world) :
  inbox w = (got ++ more) :: rest ->
  recv (List.length got) w =
    (Val got,
     log (EvRecv (List.length got) got)
       (mkWorld (match more with [] => rest | _ => more :: rest end)
          (send_script w) (rng w) (draws w) (trace w))).
Proof.
  intros E. unfold recv. rewrite E.
  rewrite firstn_app, Nat.sub_diag, firstn_all, firstn_O, app_nil_r.
  rewrite skipn_app, Nat.sub_diag, skipn_all. reflexivity.
Qed.

Lemma read_message_header_short (w : world) :
  header_short w -> fst (read_message w) = Val None.
Proof.
  intros (header & w1 & E & Hlen).
  unfold read_message, bind. rewrite E.
  apply Nat.eqb_neq in Hlen. rewrite Hlen. reflexivity.
Qed.

Lemma read_message_body_short (w : world) :
  body_short w -> fst (read_message w) = Val None.
Proof.
  intros (header & w1 & message & w2 & E1 & Hlen & Hv & E2 & Hshort).
  unfold read_message, bind. rewrite E1.
  apply Nat.eqb_eq in Hlen. rewrite Hlen.
  replace ((Struct.unpack_I_be header <=? 0)%N) with false
    by (symmetry; apply N.leb_gt; lia).
  replace ((65535 <? Struct.unpack_I_be header)%N) with false
    by (symmetry; apply N.ltb_ge; lia).
  cbn [negb orb]. cbv beta iota. rewrite E2.
  replace ((len message =? Struct.unpack_I_be header)%N)
    with false by (symmetry; apply N.eqb_neq; lia).
  reflexivity.
Qed.

(** ** Frame codec: round trip and header check *)

Lemma make_message_value (b : bytes) :
  (len b < 2 ^ 32)%N -> make_message b = Val (Struct.be_bytes 4 (len b) ++ b).
Proof.
  intros Hlen. unfold make_message, Struct.pack_I_be.
  apply N.ltb_lt in Hlen. now rewrite Hlen.
Qed.

(** Reading a frame that sits at the front of the first segment. *)
Lemma read_message_frame (b more : bytes) (rest : list bytes) (w : world) :
  (0 < len b <= 65535)%N ->
  inbox w = (Struct.be_bytes 4 (len b) ++ b ++ more) :: rest ->
  read_message w =
    (Val (Some b),
     mkWorld (match more with [] => rest | _ => more :: rest end)
       (send_script w) (rng w) (draws w)
       (trace w
        ++ [EvRecv 4 (Struct.be_bytes 4 (len b));
            EvRecv (List.length b) b])).
Proof.
  intros Hlen E.
  set (hd := Struct.be_bytes 4 (len b)) in *.
  assert (Hhd : List.length hd = 4) by apply StructFacts.length_be_bytes.
  assert (Hv : Struct.unpack_I_be hd = len b).
  { apply StructFacts.unpack_pack_I_be.
    change (2 ^ 32)%N with 4294967296%N. lia. }
  unfold read_message, bind.
  pose proof (recv_buffered hd (b ++ more) rest w E) as R.
  rewrite Hhd in R. rewrite R. rewrite Hhd. cbn [Nat.eqb negb].
  rewrite Hv.
  replace ((len b <=? 0)%N) with false by (symmetry; apply N.leb_gt; lia).
  replace ((65535 <? len b)%N) with false by (symmetry; apply N.ltb_ge; lia).
  cbn [orb]. cbv beta iota. unfold len at 1. rewrite Nat2N.id.
  destruct b as [|b0 b']; [cbv in Hlen; destruct Hlen; discriminate|].
  rewrite (recv_buffered (b0 :: b') more rest) by reflexivity.
  rewrite N.eqb_refl. cbn [negb]. unfold ret, log. cbn.
  rewrite <- app_assoc. reflexivity.
Qed.

(** C1. Frame codec round trip: for every body [b] with
    [0 < len(b) <= 65535], [make_message b] is the 4-byte big-endian length
    followed by [b], and [read_message] on a socket that holds these bytes
    (followed by anything) returns exactly [b]. *)
Theorem read_message_make_message_roundtrip (b : bytes) :
  (0 < len b <= 65535)%N ->
  exists frame,
    make_message b = Val frame /\
    frame = Struct.be_bytes 4 (len b) ++ b /\
    forall (more : bytes) (rest : list bytes) (w : world),
      inbox w = (frame ++ more) :: rest ->
      fst (read_message w) = Val (Some b).
Proof.
  intros Hlen. eexists. split; [|split; [reflexivity|]].
  - apply make_message_value. change (2 ^ 32)%N with 4294967296%N. lia.
  - intros more rest w E. rewrite <- app_assoc in E.
    now rewrite (read_message_frame b more rest w Hlen E).
Qed.

Lemma read_message_make_message_roundtrip_witness :
  (0 < len (lit "abc") <= 65535)%N /\
  exists frame,
    make_message (lit "abc") = Val frame /\
    frame = Struct.be_bytes 4 (len (lit "abc")) ++ lit "abc" /\
    forall (more : bytes) (rest : list bytes) (w : world),
      inbox w = (frame ++ more) :: rest ->
      fst (read_message w) = Val (Some (lit "abc")).
Proof.
  assert (H : (0 < len (lit "abc") <= 65535)%N)
    by (vm_compute; split; [reflexivity | discriminate]).
  split; [exact H|].
  exact (read_message_make_message_roundtrip (lit "abc") H).
Defined.

(** C3 (as stated, refuted). A short body read and a short header read are
    not told apart: on [short_body_world] and [short_header_world] the
    caller of [read_message] gets the same value. *)
Lemma read_message_failures_coincide :
  body_short short_body_world /\
  header_short short_header_world /\
  fst (read_message short_body_world)
  = fst (read_message short_header_world).
Proof.
  split; [|split].
  - eexists _, _, _, _. split; [reflexivity|].
    split; [reflexivity|]. split; [vm_compute; split; discriminate|].
    split; [reflexivity|]. reflexivity.
  - eexists _, _. split; [reflexivity|]. discriminate.
  - reflexivity.
Qed.

(** C3 (amended). [read_message] has a single failure signal: it returns
    [None] both when the body read returns fewer bytes than declared and
    when the header read comes up short. *)
Theorem read_message_single_failure_signal (w1 w2 : world) :
  body_short w1 -> header_short w2 ->
  fst (read_message w1) = Val None /\ fst (read_message w2) = Val None.
Proof.
  intros Hb Hh. split.
  - now apply read_message_body_short.
  - now apply read_message_header_short.
Qed.

Lemma read_message_single_failure_signal_witness :
  fst (read_message short_body_world) = Val None /\
  fst (read_message short_header_world) = Val None.
Proof.
  apply (read_message_single_failure_signal
           short_body_world short_header_world).
  - eexists _, _, _, _. split; [reflexivity|].
    split; [reflexivity|]. split; [vm_compute; split; discriminate|].
    split; [reflexivity|]. reflexivity.
  - eexists _, _. split; [reflexivity|]. discriminate.
Defined.

(** C4. Header rejection: when the header read returns 4 bytes whose
    big-endian value is 0 or above 65535, [read_message] returns [None]
    having read nothing but the header, whatever follows it; for a value in
    1..65535 it goes on to read that many bytes and answers according to
    that read. *)
Theorem read_message_header_check (w w1 : world) (header : bytes) :
  recv 4 w = (Val header, w1) ->
  List.length header = 4 ->
  ((Struct.unpack_I_be header = 0 \/ 65535 < Struct.unpack_I_be header)%N ->
   read_message w = (Val None, w1)) /\
  ((1 <= Struct.unpack_I_be header <= 65535)%N ->
   exists message w2,
     recv (N.to_nat (Struct.unpack_I_be header)) w1 = (Val message, w2) /\
     read_message w =
       (Val (if (len message =? Struct.unpack_I_be header)%N
             then Some message else None), w2)).
Proof.
  intros E Hlen. apply Nat.eqb_eq in Hlen.
  split; intros Hv; unfold read_message, bind; rewrite E, Hlen;
    cbn [negb].
  - replace ((Struct.unpack_I_be header <=? 0)
             || (65535 <? Struct.unpack_I_be header))%N
      with true; [reflexivity|].
    symmetry. apply orb_true_iff. rewrite N.leb_le, N.ltb_lt. lia.
  - replace ((Struct.unpack_I_be header <=? 0)%N) with false
      by (symmetry; apply N.leb_gt; lia).
    replace ((65535 <? Struct.unpack_I_be header)%N) with false
      by (symmetry; apply N.ltb_ge; lia).
    cbn [orb]. cbv beta iota.
    destruct (recv (N.to_nat (Struct.unpack_I_be header)) w1)
      as [r w2] eqn:E2.
    destruct (recv_value (N.to_nat (Struct.unpack_I_be header)) w1)
      as [message Em].
    rewrite E2 in Em. simpl in Em. subst r.
    exists message, w2. split; [reflexivity|].
    now destruct (len message =? Struct.unpack_I_be header)%N.
Qed.

Lemma read_message_header_check_witness :
  read_message (world_of [[x00; x01; x00; x00; x61; x62]] 0)
  = (Val None,
     mkWorld [[x61; x62]] [] (fun _ => 0) 0
       [EvRecv 4 [x00; x01; x00; x00]]).
Proof.
  apply (read_message_header_check
           (world_of [[x00; x01; x00; x00; x61; x62]] 0)
           (mkWorld [[x61; x62]] [] (fun _ => 0) 0
              [EvRecv 4 [x00; x01; x00; x00]])
           [x00; x01; x00; x00]).
  - reflexivity.
  - reflexivity.
  - right. vm_compute. reflexivity.
Defined.

(** ** [bytes.find] finds exactly the substrings *)

Lemma starts_with_iff (sub s : bytes) :
  starts_with sub s = true <-> exists post, s = sub ++ post.
Proof.
  revert s; induction sub as [|a sub IH]; intros s; simpl.
  - split; [intros _; now exists s | reflexivity].
  - destruct s as [|b s].
    + split; [discriminate | intros [post E]; discriminate].
    + rewrite andb_true_iff, IH. split.
      * intros [Hab [post E]]. apply Byte.byte_dec_bl in Hab.
        exists post. now subst.
      * intros [post E]. injection E as -> ->.
        split; [now apply Byte.byte_dec_lb | now exists post].
Qed.

Lemma contains_cons (a : byte) (s sub : bytes) :
  contains (a :: s) sub <-> starts_with sub (a :: s) = true \/ contains s sub.
Proof.
  rewrite starts_with_iff. split.
  - intros (pre & post & E). destruct pre as [|p pre].
    + left. now exists post.
    + right. injection E as _ E. now exists pre, post.
  - intros [[post E] | (pre & post & E)].
    + now exists [], post.
    + exists (a :: pre), post. simpl. now rewrite E.
Qed.

Lemma find_from_contains (sub s : bytes) (i : Z) :
  (0 <= i)%Z ->
  negb (find_from i sub s =? -1)%Z = true <-> contains s sub.
Proof.
  revert i; induction s as [|a s IH]; intros i Hi.
  - simpl. destruct (starts_with sub []) eqn:E.
    + split; intros _.
      * apply starts_with_iff in E as [post E]. now exists [], post.
      * apply negb_true_iff, Z.eqb_neq. lia.
    + split; [discriminate|].
      intros (pre & post & H). exfalso.
      destruct pre; [|discriminate].
      assert (starts_with sub [] = true)
        by (apply starts_with_iff; now exists post).
      congruence.
  - rewrite contains_cons. cbn [find_from].
    destruct (starts_with sub (a :: s)) eqn:E.
    + split; [now left|]. intros _. apply negb_true_iff, Z.eqb_neq. lia.
    + rewrite IH by lia. split; [now right | now intros [|]].
Qed.

Lemma find_contains (s sub : bytes) :
  negb (find s sub =? -1)%Z = true <-> contains s sub.
Proof. unfold find. now apply find_from_contains. Qed.

Lemma find_not_contains (s sub : bytes) :
  negb (find s sub =? -1)%Z = false <-> ~ contains s sub.
Proof.
  rewrite <- find_contains. now destruct (negb (find s sub =? -1)%Z).
Qed.

(** ** Observations are additive along the trace *)

Lemma attempts_app (t1 t2 : list event) :
  attempts (t1 ++ t2) = attempts t1 ++ attempts t2.
Proof.
  induction t1 as [|[d o|n g|z] t1 IH]; simpl; [reflexivity| |assumption..].
  now rewrite IH.
Qed.

Lemma wire_app (t1 t2 : list event) :
  wire (t1 ++ t2) = wire t1 ++ wire t2.
Proof.
  induction t1 as [|[d [e|]|n g|z] t1 IH]; simpl;
    [reflexivity|assumption| |assumption..].
  now rewrite IH, app_assoc.
Qed.

(** ** Running the socket writes *)

Lemma sendall_run (data : bytes) (w : world) :
  sendall data w =
    (match next_outcome w with None => Val tt | Some e => Exc e end,
     sent data w).
Proof.
  unfold sendall, sent, next_outcome, log.
  destruct (send_script w) as [|[e|] rest]; reflexivity.
Qed.

Lemma write_message_run (data : bytes) (w : world) :
  (len data < 2 ^ 32)%N ->
  write_returns (next_outcome w) ->
  write_message data w =
    (Val (match next_outcome w with None => true | Some _ => false end),
     sent (frame data) w).
Proof.
  intros Hlen Hret. unfold write_message, bind, try_send, lift.
  rewrite (make_message_value data Hlen). fold (frame data).
  rewrite sendall_run.
  destruct (next_outcome w) as [[]|]; simpl in Hret; try contradiction;
    reflexivity.
Qed.

(** Reading never writes, draws or touches the send script. *)
Lemma recv_quiet (n : nat) (w : world) :
  let w' := snd (recv n w) in
  attempts (trace w') = attempts (trace w) /\
  wire (trace w') = wire (trace w) /\
  draws w' = draws w /\ rng w' = rng w /\
  send_script w' = send_script w.
Proof.
  unfold recv. destruct (inbox w); simpl;
    rewrite attempts_app, wire_app; simpl; rewrite !app_nil_r; auto.
Qed.

Lemma read_message_quiet (w : world) :
  let w' := snd (read_message w) in
  (exists m, fst (read_message w) = Val m) /\
  attempts (trace w') = attempts (trace w) /\
  wire (trace w') = wire (trace w) /\
  draws w' = draws w /\ rng w' = rng w /\
  send_script w' = send_script w.
Proof.
  unfold read_message, bind.
  pose proof (recv_quiet 4 w) as Q1. pose proof (recv_value 4 w) as [hd V1].
  destruct (recv 4 w) as [r1 w1]. simpl in Q1, V1. subst r1.
  destruct (negb (List.length hd =? 4)); [simpl; eauto|].
  destruct ((Struct.unpack_I_be hd <=? 0)
            || (65535 <? Struct.unpack_I_be hd))%N;
    [simpl; eauto|].
  pose proof (recv_quiet (N.to_nat (Struct.unpack_I_be hd)) w1) as Q2.
  pose proof (recv_value (N.to_nat (Struct.unpack_I_be hd)) w1) as [m V2].
  destruct (recv (N.to_nat (Struct.unpack_I_be hd)) w1) as [r2 w2].
  simpl in Q2, V2. subst r2.
  destruct Q1 as (A1 & B1 & C1 & D1 & E1).
  destruct Q2 as (A2 & B2 & C2 & D2 & E2).
  destruct (negb (len m =? Struct.unpack_I_be hd)%N); simpl;
    (split; [eauto|]); repeat split; congruence.
Qed.

(** ** Diagnostic service *)

Lemma service_diagnostic (port : N) :
  ~ production port -> service port = (lit "test", true).
Proof.
  intros H. unfold service, production in *. simpl in H.
  repeat match goal with
         | |- context [(port =? ?p)%N] =>
             destruct (N.eqb_spec port p); [exfalso; apply H; subst; auto 10|]
         end.
  reflexivity.
Qed.

Lemma canned_diagnostic (native : Struct.byte_order) (port : N) :
  ~ production port -> canned native port = None.
Proof.
  intros H. unfold canned, production in *. simpl in H.
  repeat match goal with
         | |- context [(port =? ?p)%N] =>
             destruct (N.eqb_spec port p); [exfalso; apply H; subst; auto 10|]
         end.
  reflexivity.
Qed.

(** The [if]/[elif] chain implements the priority order. *)
Lemma select_reply_priority (native : Struct.byte_order) (msg : bytes) :
  contains msg (lit "header") \/ contains msg (lit "payload") \/
  contains msg (lit "length") \/ contains msg (lit "xml") ->
  exists buf,
    select_reply native msg = Val buf /\ priority_reply native msg buf.
Proof.
  intros H. unfold select_reply.
  destruct (negb (find msg (lit "header") =? -1)%Z) eqn:Eh.
  { apply find_contains in Eh. eexists. split; [reflexivity|].
    now constructor. }
  apply find_not_contains in Eh.
  destruct (negb (find msg (lit "payload") =? -1)%Z) eqn:Ep.
  { apply find_contains in Ep. eexists. split; [reflexivity|].
    now constructor. }
  apply find_not_contains in Ep.
  destruct (negb (find msg (lit "length") =? -1)%Z) eqn:El.
  { apply find_contains in El. eexists. split; [reflexivity|].
    now constructor. }
  apply find_not_contains in El.
  destruct (negb (find msg (lit "xml") =? -1)%Z) eqn:Ex.
  { apply find_contains in Ex. eexists. split; [reflexivity|].
    now constructor. }
  apply find_not_contains in Ex. tauto.
Qed.

(** One run of the diagnostic branch once [buf] is chosen: a single
    [sendall], no draw, and the session is over. *)
Lemma diagnostic_run (native : Struct.byte_order) (m buf : bytes) (w : world) :
  select_reply native m = Val buf ->
  let r := diagnostic native (Some m) w in
  attempts (trace (snd r)) = attempts (trace w) ++ [buf] /\
  draws (snd r) = draws w /\
  fst r = match next_outcome w with
          | None => Val DiagnosticDone
          | Some e => Exc e
          end.
Proof.
  intros E. unfold diagnostic, bind, lift. rewrite E, sendall_run.
  assert (A : attempts (trace (sent buf w)) = attempts (trace w) ++ [buf])
    by (unfold sent; simpl; now rewrite attempts_app).
  destruct (next_outcome w) as [e|]; [simpl; auto|].
  destruct (negb (find m (lit "timeout") =? -1)%Z).
  - pose proof (read_message_quiet (sent buf w)) as ([x V] & Q1 & _ & Q2 & _).
    destruct (read_message (sent buf w)) as [r1 w1]. simpl in *. subst r1.
    simpl. repeat split; congruence.
  - simpl. rewrite attempts_app, app_nil_r. auto.
Qed.

Lemma next_outcome_nth (w : world) :
  next_outcome w = nth 0 (send_script w) None.
Proof. unfold next_outcome. now destruct (send_script w). Qed.

Lemma nth_tl {A} (k : nat) (l : list A) (d : A) :
  nth k (tl l) d = nth (S k) l d.
Proof. destruct l; [now destruct k | reflexivity]. Qed.

Lemma len_identity_test : (len (identity (lit "test")) < 2 ^ 32)%N.
Proof. now vm_compute. Qed.

Lemma len_device_list (file : source_file) :
  (len (device_list file) < 2 ^ 32)%N.
Proof. destruct file; now vm_compute. Qed.

(** On a port outside the five data services, with the channel list [msg]
    waiting in the socket, [handle] performs the two handshake writes and
    the read, and continues as the diagnostic branch on [msg]. *)
Lemma handle_diagnostic
    (native : Struct.byte_order) (file : source_file) (fuel : nat)
    (port : N) (msg more : bytes) (rest : list bytes) (w : world) :
  ~ production port ->
  (0 < len msg <= 65535)%N ->
  inbox w = (frame msg ++ more) :: rest ->
  write_returns (nth 0 (send_script w) None) ->
  write_returns (nth 1 (send_script w) None) ->
  exists w2,
    handle native file fuel port w = diagnostic native (Some msg) w2 /\
    attempts (trace w2)
    = attempts (trace w)
      ++ [frame (identity (lit "test")); frame (device_list file)] /\
    draws w2 = draws w /\
    next_outcome w2 = nth 2 (send_script w) None.
Proof.
  intros Hport Hlen Hin H0 H1.
  unfold handle. rewrite (service_diagnostic port Hport).
  rewrite (canned_diagnostic native port Hport).
  unfold bind at 1.
  rewrite write_message_run;
    [|exact len_identity_test|now rewrite next_outcome_nth].
  unfold bind at 1.
  set (w1 := sent (frame (identity (lit "test"))) w).
  assert (Hin1 : inbox w1
                 = (Struct.be_bytes 4 (len msg) ++ msg ++ more) :: rest).
  { unfold w1, sent. simpl. rewrite Hin. unfold frame.
    now rewrite <- app_assoc. }
  rewrite (read_message_frame msg more rest w1 Hlen Hin1).
  match goal with
  | |- context [bind (write_message _) _ ?x] => set (wr := x)
  end.
  assert (Hs : send_script wr = tl (send_script w)) by reflexivity.
  unfold bind at 1.
  rewrite write_message_run;
    [|apply len_device_list
     |now rewrite next_outcome_nth, Hs, nth_tl].
  eexists. split; [reflexivity|].
  split; [|split].
  - unfold sent, wr, w1, sent. simpl.
    rewrite !attempts_app. simpl. now rewrite <- !app_assoc.
  - reflexivity.
  - rewrite next_outcome_nth. unfold sent, wr, w1, sent. simpl.
    now rewrite !nth_tl.
Qed.

(** C5. Diagnostic branch selection and exclusivity: when the channel list
    received on the diagnostic port contains at least one of header,
    payload, length, xml, the handler hands [sendall] exactly one reply
    after the two handshake frames, the one of the first keyword in that
    order; the run then ends (normally, or with the exception of that
    [sendall]) and no random number is drawn: the streaming loop, whose
    every iteration starts with a draw, is never entered. *)
Theorem diagnostic_reply_by_priority
    (native : Struct.byte_order) (file : source_file) (fuel : nat)
    (port : N) (msg more : bytes) (rest : list bytes) (w : world) :
  ~ production port ->
  (0 < len msg <= 65535)%N ->
  inbox w = (frame msg ++ more) :: rest ->
  write_returns (nth 0 (send_script w) None) ->
  write_returns (nth 1 (send_script w) None) ->
  contains msg (lit "header") \/ contains msg (lit "payload") \/
  contains msg (lit "length") \/ contains msg (lit "xml") ->
  exists buf,
    priority_reply native msg buf /\
    attempts (trace (snd (handle native file fuel port w)))
    = attempts (trace w)
      ++ [frame (identity (lit "test")); frame (device_list file); buf] /\
    draws (snd (handle native file fuel port w)) = draws w /\
    fst (handle native file fuel port w)
    = match nth 2 (send_script w) None with
      | None => Val DiagnosticDone
      | Some e => Exc e
      end.
Proof.
  intros Hport Hlen Hin H0 H1 Hkey.
  destruct (handle_diagnostic native file fuel port msg more rest w
              Hport Hlen Hin H0 H1) as (w2 & E & A & D & O).
  destruct (select_reply_priority native msg Hkey) as (buf & S & P).
  destruct (diagnostic_run native msg buf w2 S) as (A' & D' & R).
  exists buf. rewrite E. split; [exact P|]. split; [|split].
  - rewrite A', A, <- app_assoc. reflexivity.
  - congruence.
  - now rewrite R, O.
Qed.

Lemma diagnostic_reply_by_priority_witness :
  exists buf,
    priority_reply Struct.LittleEndian (lit "xx payload length") buf /\
    attempts
      (trace (snd (handle Struct.LittleEndian MockSdkServer 0 32000
                     (client_sending (lit "xx payload length")))))
    = attempts (trace (client_sending (lit "xx payload length")))
      ++ [frame (identity (lit "test")); frame (device_list MockSdkServer);
          buf] /\
    draws (snd (handle Struct.LittleEndian MockSdkServer 0 32000
                  (client_sending (lit "xx payload length"))))
    = draws (client_sending (lit "xx payload length")) /\
    fst (handle Struct.LittleEndian MockSdkServer 0 32000
           (client_sending (lit "xx payload length")))
    = match nth 2 (send_script (client_sending (lit "xx payload length")))
              None with
      | None => Val DiagnosticDone
      | Some e => Exc e
      end.
Proof.
  apply (diagnostic_reply_by_priority Struct.LittleEndian MockSdkServer 0
           32000 (lit "xx payload length") [] []).
  - unfold production. simpl. intuition discriminate.
  - vm_compute. split; [reflexivity | discriminate].
  - reflexivity.
  - exact I.
  - exact I.
  - right. left. exists (lit "xx "), (lit " length"). reflexivity.
Defined.

(** C2 (as stated, refuted). On the channel list [header] the reply handed
    to [sendall] is the two bytes [01 00] (little-endian host); it is not a
    frame whose length field says 2, for it is shorter than a length
    field. *)
Lemma header_reply_declares_no_length :
  contains (lit "header") (lit "header") /\
  attempts
    (trace (snd (handle Struct.LittleEndian MockSdkServer 0 32000
                   (client_sending (lit "header")))))
  = [frame (identity (lit "test")); frame (device_list MockSdkServer);
     [x01; x00]] /\
  ~ exists body, [x01; x00] = Struct.be_bytes 4 2 ++ body.
Proof.
  split; [|split].
  - exists [], []. reflexivity.
  - vm_compute. reflexivity.
  - intros [body E]. vm_compute in E. discriminate.
Qed.

(** C2 (amended). For every channel list containing [header], the
    diagnostic service answers with one [sendall] of the two raw bytes of
    [struct.pack("h", 1)]: an incomplete length prefix, not a frame, so no
    body length is declared. *)
Theorem header_reply_is_two_raw_bytes
    (native : Struct.byte_order) (file : source_file) (fuel : nat)
    (port : N) (msg more : bytes) (rest : list bytes) (w : world) :
  ~ production port ->
  (0 < len msg <= 65535)%N ->
  inbox w = (frame msg ++ more) :: rest ->
  write_returns (nth 0 (send_script w) None) ->
  write_returns (nth 1 (send_script w) None) ->
  contains msg (lit "header") ->
  attempts (trace (snd (handle native file fuel port w)))
  = attempts (trace w)
    ++ [frame (identity (lit "test")); frame (device_list file);
        Struct.field_h native 1] /\
  List.length (Struct.field_h native 1) = 2 /\
  forall body : bytes,
    List.length (Struct.field_h native 1)
    < List.length (Struct.be_bytes 4 2 ++ body).
Proof.
  intros Hport Hlen Hin H0 H1 Hkey.
  destruct (handle_diagnostic native file fuel port msg more rest w
              Hport Hlen Hin H0 H1) as (w2 & E & A & _ & _).
  assert (S : select_reply native msg = Val (Struct.field_h native 1)).
  { unfold select_reply. apply find_contains in Hkey. now rewrite Hkey. }
  destruct (diagnostic_run native msg _ w2 S) as (A' & _ & _).
  rewrite E. split; [|split].
  - rewrite A', A, <- app_assoc. reflexivity.
  - apply StructFacts.length_ordered.
  - intros body. unfold Struct.field_h.
    rewrite StructFacts.length_ordered, length_app,
      StructFacts.length_be_bytes. lia.
Qed.

Lemma header_reply_is_two_raw_bytes_witness :
  attempts
    (trace (snd (handle Struct.BigEndian TestServer 0 32000
                   (client_sending (lit "the header")))))
  = attempts (trace (client_sending (lit "the header")))
    ++ [frame (identity (lit "test")); frame (device_list TestServer);
        Struct.field_h Struct.BigEndian 1] /\
  List.length (Struct.field_h Struct.BigEndian 1) = 2 /\
  forall body : bytes,
    List.length (Struct.field_h Struct.BigEndian 1)
    < List.length (Struct.be_bytes 4 2 ++ body).
Proof.
  apply (header_reply_is_two_raw_bytes Struct.BigEndian TestServer 0
           32000 (lit "the header") [] []).
  - unfold production. simpl. intuition discriminate.
  - vm_compute. split; [reflexivity | discriminate].
  - reflexivity.
  - exact I.
  - exact I.
  - exists (lit "the "), []. reflexivity.
Defined.

(** ** Jitter transmitter: the chunking loop *)

Lemma randint_value_range (r a b : nat) :
  a <= b -> a <= randint_value r a b <= b.
Proof.
  intros Hab. unfold randint_value.
  pose proof (Nat.mod_upper_bound r (b - a + 1)). lia.
Qed.

Lemma firstn_plus {A} (p q : nat) (l : list A) :
  firstn p l ++ firstn q (skipn p l) = firstn (p + q) l.
Proof.
  revert l; induction p as [|p IH]; intros l; [reflexivity|].
  destruct l as [|a l]; simpl; [now rewrite firstn_nil|].
  now rewrite IH.
Qed.

Lemma slice_nil (msg : bytes) (j : nat) : slice msg j j = [].
Proof. unfold slice. now rewrite Nat.sub_diag. Qed.

Lemma slice_app (msg : bytes) (a b c : nat) :
  a <= b -> b <= c -> slice msg a b ++ slice msg b c = slice msg a c.
Proof.
  intros Hab Hbc. unfold slice.
  replace (skipn b msg) with (skipn (b - a) (skipn a msg))
    by (rewrite skipn_skipn; f_equal; lia).
  rewrite firstn_plus. f_equal. lia.
Qed.

Lemma slice_from_0 (msg : bytes) (n : nat) : slice msg 0 n = firstn n msg.
Proof. unfold slice. now rewrite Nat.sub_0_r. Qed.

Lemma failure_free_sent (d : bytes) (w : world) :
  failure_free w -> failure_free (sent d w).
Proof.
  unfold failure_free, sent. simpl.
  destruct (send_script w); simpl; [auto|]. now inversion 1.
Qed.

Lemma failure_free_next (w : world) :
  failure_free w -> next_outcome w = None.
Proof.
  unfold failure_free, next_outcome.
  destruct (send_script w); [reflexivity|]. now inversion 1.
Qed.

(** The three ways through one test of the [while] condition. *)
Lemma chunk_loop_done (fuel : nat) (msg : bytes) (j : nat) (dt : Z)
    (w : world) :
  List.length msg <= j ->
  chunk_loop fuel msg j dt w = (Val (LoopDone dt), w).
Proof.
  intros H. apply Nat.ltb_ge in H.
  destruct fuel; simpl; now rewrite H.
Qed.

Lemma chunk_loop_no_fuel (msg : bytes) (j : nat) (dt : Z) (w : world) :
  j < List.length msg ->
  chunk_loop 0 msg j dt w = (Val LoopFuel, w).
Proof. intros H. apply Nat.ltb_lt in H. simpl. now rewrite H. Qed.

Lemma chunk_loop_step (fuel : nat) (msg : bytes) (j : nat) (dt : Z)
    (w : world) :
  j < List.length msg ->
  chunk_loop (S fuel) msg j dt w =
    let n := randint_value (rng w (draws w)) j (List.length msg) in
    let w1 := sent (slice msg j n) (drawn w) in
    match next_outcome (drawn w) with
    | None => chunk_loop fuel msg n (dt + 1000) (log (EvSleep 1000) w1)
    | Some BrokenPipeError | Some ConnectionAbortedError =>
        (Val LoopReturn, w1)
    | Some e => (Exc e, w1)
    end.
Proof.
  intros H. apply Nat.ltb_lt in H. cbn [chunk_loop]. rewrite H.
  unfold bind at 1. unfold randint at 1. fold (drawn w).
  unfold bind at 1. unfold try_send. rewrite sendall_run.
  cbv zeta.
  destruct (next_outcome (drawn w)) as [[]|]; reflexivity.
Qed.

(** Whatever the draws, the fuel and the send outcomes, the bytes the loop
    has put on the wire are the slice of [msg] from the starting offset to
    some later offset; on normal exit that offset is the end of [msg]. *)
Lemma chunk_loop_wire (fuel : nat) (msg : bytes) :
  forall (j : nat) (dt : Z) (w : world),
    j <= List.length msg ->
    exists n,
      j <= n <= List.length msg /\
      wire (trace (snd (chunk_loop fuel msg j dt w)))
      = wire (trace w) ++ slice msg j n /\
      (forall dt', fst (chunk_loop fuel msg j dt w) = Val (LoopDone dt') ->
                   n = List.length msg) /\
      rng (snd (chunk_loop fuel msg j dt w)) = rng w /\
      (failure_free w -> failure_free (snd (chunk_loop fuel msg j dt w))).
Proof.
  induction fuel as [|fuel IH]; intros j dt w Hj;
    destruct (Nat.lt_ge_cases j (List.length msg)) as [Hlt|Hge].
  - rewrite chunk_loop_no_fuel by assumption. exists j. simpl.
    rewrite slice_nil, app_nil_r. repeat split; auto; try lia. discriminate.
  - rewrite chunk_loop_done by assumption. exists j. simpl.
    rewrite slice_nil, app_nil_r. repeat split; auto; lia.
  - rewrite chunk_loop_step by assumption. cbv zeta.
    set (n1 := randint_value (rng w (draws w)) j (List.length msg)).
    pose proof (randint_value_range (rng w (draws w)) j (List.length msg) Hj)
      as Hn1. fold n1 in Hn1.
    set (w1 := sent (slice msg j n1) (drawn w)).
    assert (Hff : failure_free w -> failure_free w1)
      by (intros F; now apply failure_free_sent).
    destruct (next_outcome (drawn w)) as [e|] eqn:O.
    + (* the write fails *)
      exists j.
      assert (W : wire (trace w1) = wire (trace w)).
      { unfold w1, sent. rewrite O. simpl. rewrite wire_app. simpl.
        now rewrite app_nil_r. }
      destruct e; cbn [fst snd]; rewrite W, slice_nil, app_nil_r;
        repeat split; auto; try lia; discriminate.
    + (* the write succeeds *)
      set (w3 := log (EvSleep 1000) w1).
      destruct (IH n1 (dt + 1000)%Z w3) as (n & Hn & W & D & R & F);
        [lia|].
      exists n. split; [lia|].
      assert (W3 : wire (trace w3) = wire (trace w) ++ slice msg j n1).
      { unfold w3, log, w1, sent. rewrite O. simpl. rewrite !wire_app.
        simpl. now rewrite !app_nil_r. }
      split; [|split; [exact D|split; [exact R|]]].
      * rewrite W, W3, <- app_assoc. f_equal. apply slice_app; lia.
      * intros F0. apply F. apply (Hff F0).
  - rewrite chunk_loop_done by assumption. exists j. simpl.
    rewrite slice_nil, app_nil_r. repeat split; auto; lia.
Qed.

(** ** Jitter transmitter: one sample, then the [for] loop *)

Lemma copies_S (k : nat) (m : bytes) : copies (S k) m = m ++ copies k m.
Proof. reflexivity. Qed.

Lemma copies_add (a b : nat) (m : bytes) :
  copies (a + b) m = copies a m ++ copies b m.
Proof.
  induction a as [|a IH]; [reflexivity|].
  cbn [Nat.add]. now rewrite !copies_S, IH, app_assoc.
Qed.

Lemma concat_copies (ks : list nat) (m : bytes) :
  List.concat (map (fun k => copies k m) ks) = copies (list_sum ks) m.
Proof.
  induction ks as [|k ks IH]; [reflexivity|].
  simpl. now rewrite IH, copies_add.
Qed.

Lemma stream_iteration_run (fuel : nat) (data : bytes) (w : world) :
  (len data < 2 ^ 32)%N ->
  stream_iteration fuel data w =
    let k := randint_value (rng w (draws w)) 1 5 in
    match chunk_loop fuel (copies k (frame data)) 0 0 (drawn w) with
    | (Val (LoopDone dt), w') =>
        (Val (LoopDone (10000 - dt)),
         if (0 <? 10000 - dt)%Z then log (EvSleep (10000 - dt)) w' else w')
    | (Val r, w') => (Val r, w')
    | (Exc e, w') => (Exc e, w')
    end.
Proof.
  intros Hlen. unfold stream_iteration, bind at 1, lift.
  rewrite (make_message_value data Hlen). fold (frame data).
  unfold bind at 1. unfold randint at 1. fold (drawn w).
  cbv zeta. fold (copies (randint_value (rng w (draws w)) 1 5) (frame data)).
  unfold bind at 1.
  destruct (chunk_loop fuel _ 0 0%Z (drawn w)) as [[[dt| |]|e] w'];
    try reflexivity.
  unfold bind, sleep, ret. now destruct (0 <? 10000 - dt)%Z.
Qed.

(** One sample: the bytes put on the wire are the first [n] bytes of [k]
    copies of the frame, all of them when the iteration runs to its
    end. *)
Lemma stream_iteration_wire (fuel : nat) (data : bytes) (w : world) :
  (len data < 2 ^ 32)%N ->
  exists k n,
    k = randint_value (rng w (draws w)) 1 5 /\ 1 <= k <= 5 /\
    wire (trace (snd (stream_iteration fuel data w)))
    = wire (trace w) ++ firstn n (copies k (frame data)) /\
    (forall dt, fst (stream_iteration fuel data w) = Val (LoopDone dt) ->
                firstn n (copies k (frame data)) = copies k (frame data)) /\
    rng (snd (stream_iteration fuel data w)) = rng w /\
    (failure_free w -> failure_free (snd (stream_iteration fuel data w))).
Proof.
  intros Hlen. rewrite (stream_iteration_run fuel data w Hlen). cbv zeta.
  set (k := randint_value (rng w (draws w)) 1 5).
  set (msg := copies k (frame data)).
  destruct (chunk_loop_wire fuel msg 0 0%Z (drawn w))
    as (n & Hn & W & D & R & F);
    [lia|].
  rewrite slice_from_0 in W.
  exists k, n. split; [reflexivity|].
  split; [apply randint_value_range; lia|].
  change (wire (trace (drawn w))) with (wire (trace w)) in W.
  change (rng (drawn w)) with (rng w) in R.
  change (failure_free (drawn w)) with (failure_free w) in F.
  destruct (chunk_loop fuel msg 0 0%Z (drawn w)) as [[[dt| |]|e] w'];
    cbn [fst snd] in *.
  - assert (E : n = List.length msg) by (now apply (D dt)).
    assert (W' : forall b : bool,
               wire (trace (if b then log (EvSleep (10000 - dt)) w' else w'))
               = wire (trace w')).
    { intros []; [|reflexivity]. unfold log. simpl.
      rewrite wire_app. simpl. now rewrite app_nil_r. }
    rewrite W', W. split; [reflexivity|].
    split; [intros _ _; subst n; apply firstn_all|].
    split; [now destruct (0 <? 10000 - dt)%Z|].
    intros F0. specialize (F F0). now destruct (0 <? 10000 - dt)%Z.
  - repeat split; auto; discriminate.
  - repeat split; auto; discriminate.
  - repeat split; auto; discriminate.
Qed.

Lemma stream_loop_S (fuel iters : nat) (data : bytes) (w : world) :
  stream_loop fuel (S iters) data w =
    match stream_iteration fuel data w with
    | (Val (LoopDone _), w1) => stream_loop fuel iters data w1
    | (Val LoopReturn, w1) => (Val WriteAborted, w1)
    | (Val LoopFuel, w1) => (Val OutOfFuel, w1)
    | (Exc e, w1) => (Exc e, w1)
    end.
Proof.
  cbn [stream_loop]. unfold bind.
  now destruct (stream_iteration fuel data w) as [[[dt| |]|e] w1].
Qed.

(** The [for] loop: completed iterations contribute whole groups of copies,
    the iteration that ends the run early a prefix of one. *)
Lemma stream_loop_wire (fuel : nat) (data : bytes) :
  (len data < 2 ^ 32)%N ->
  forall (iters : nat) (w : world),
  exists ks k n,
    Forall (fun k => 1 <= k <= 5) ks /\ List.length ks <= iters /\
    wire (trace (snd (stream_loop fuel iters data w)))
    = wire (trace w)
      ++ List.concat (map (fun k => copies k (frame data)) ks)
      ++ firstn n (copies k (frame data)) /\
    (fst (stream_loop fuel iters data w) = Val StreamCompleted ->
     List.length ks = iters /\ n = 0) /\
    rng (snd (stream_loop fuel iters data w)) = rng w /\
    (failure_free w ->
     failure_free (snd (stream_loop fuel iters data w))).
Proof.
  intros Hlen. induction iters as [|iters IH]; intros w.
  - exists [], 0, 0. simpl. rewrite app_nil_r. repeat split; auto.
  - rewrite stream_loop_S.
    destruct (stream_iteration_wire fuel data w Hlen)
      as (k1 & n1 & _ & Hk1 & W1 & D1 & R1 & F1).
    destruct (stream_iteration fuel data w) as [[[dt| |]|e] w1];
      cbn [fst snd] in *.
    + destruct (IH w1) as (ks & k & n & Hks & Hl & W & D & R & F).
      exists (k1 :: ks), k, n.
      split; [now constructor|]. split; [simpl; lia|].
      split; [|split; [|split]].
      * rewrite W, W1, (D1 dt eq_refl). simpl.
        now rewrite <- !app_assoc.
      * intros C. destruct (D C) as [E1 E2]. simpl. split; congruence.
      * congruence.
      * auto.
    + exists [], k1, n1. simpl. repeat split; auto; try lia; discriminate.
    + exists [], k1, n1. simpl. repeat split; auto; try lia; discriminate.
    + exists [], k1, n1. simpl. repeat split; auto; try lia; discriminate.
Qed.

(** C8. The jitter transmitter preserves the byte stream: in one streaming
    iteration the chunks put on the wire, concatenated in send order, are
    the first bytes of [k] back-to-back copies of the encoded sample frame,
    [k] in 1..5 being the value drawn; when the iteration runs to its end
    they are exactly the [k] copies, whatever the cut points. *)
Theorem jitter_preserves_bytes (fuel : nat) (data : bytes) (w : world) :
  (len data < 2 ^ 32)%N ->
  exists k n,
    k = randint_value (rng w (draws w)) 1 5 /\ 1 <= k <= 5 /\
    wire (trace (snd (stream_iteration fuel data w)))
    = wire (trace w) ++ firstn n (copies k (frame data)) /\
    forall dt,
      fst (stream_iteration fuel data w) = Val (LoopDone dt) ->
      wire (trace (snd (stream_iteration fuel data w)))
      = wire (trace w) ++ copies k (frame data).
Proof.
  intros Hlen.
  destruct (stream_iteration_wire fuel data w Hlen)
    as (k & n & Ek & Hk & W & D & _ & _).
  exists k, n. repeat split; try assumption; try lia.
  intros dt E. now rewrite W, (D dt E).
Qed.

Lemma jitter_preserves_bytes_witness :
  fst (stream_iteration 40 (lit "abc")
         (mkWorld [] [] (fun i => 5 * i + 1) 0 []))
  = Val (LoopDone 4000) /\
  exists k n,
    k = randint_value 1 1 5 /\ 1 <= k <= 5 /\
    wire (trace (snd (stream_iteration 40 (lit "abc")
                        (mkWorld [] [] (fun i => 5 * i + 1) 0 []))))
    = [] ++ firstn n (copies k (frame (lit "abc"))) /\
    forall dt,
      fst (stream_iteration 40 (lit "abc")
             (mkWorld [] [] (fun i => 5 * i + 1) 0 []))
      = Val (LoopDone dt) ->
      wire (trace (snd (stream_iteration 40 (lit "abc")
                          (mkWorld [] [] (fun i => 5 * i + 1) 0 []))))
      = [] ++ copies k (frame (lit "abc")).
Proof.
  split; [vm_compute; reflexivity|].
  apply (jitter_preserves_bytes 40 (lit "abc")
           (mkWorld [] [] (fun i => 5 * i + 1) 0 [])).
  vm_compute. reflexivity.
Defined.

(** ** Data services: handshake, then streaming *)

Lemma wire_sent (d : bytes) (w : world) :
  wire (trace (sent d w))
  = wire (trace w) ++ match next_outcome w with None => d | Some _ => [] end.
Proof.
  unfold sent. simpl. rewrite wire_app.
  destruct (next_outcome w); simpl; now rewrite ?app_nil_r.
Qed.

Lemma attempts_sent (d : bytes) (w : world) :
  attempts (trace (sent d w)) = attempts (trace w) ++ [d].
Proof. unfold sent. simpl. now rewrite attempts_app. Qed.

(** With a canned sample [data] for the port, [handle] performs the two
    handshake writes (and the read of a configurable service) and goes on
    as the 100-iteration loop. *)
Lemma handle_stream
    (native : Struct.byte_order) (file : source_file) (fuel : nat)
    (port : N) (name data : bytes) (conf : bool) (w : world) :
  service port = (name, conf) ->
  canned native port = Some data ->
  (len (identity name) < 2 ^ 32)%N ->
  write_returns (nth 0 (send_script w) None) ->
  write_returns (nth 1 (send_script w) None) ->
  exists w2,
    handle native file fuel port w = stream_loop fuel 100 data w2 /\
    attempts (trace w2)
    = attempts (trace w)
      ++ [frame (identity name); frame (device_list file)] /\
    wire (trace w2)
    = wire (trace w)
      ++ match nth 0 (send_script w) None with
         | None => frame (identity name)
         | Some _ => []
         end
      ++ match nth 1 (send_script w) None with
         | None => frame (device_list file)
         | Some _ => []
         end /\
    rng w2 = rng w /\ draws w2 = draws w /\
    send_script w2 = tl (tl (send_script w)).
Proof.
  intros Hs Hc Hlen H0 H1.
  unfold handle. rewrite Hs, Hc.
  unfold bind at 1.
  rewrite write_message_run;
    [|exact Hlen|now rewrite next_outcome_nth].
  set (w1 := sent (frame (identity name)) w).
  unfold bind at 1.
  assert (Q : exists r wr,
             (if conf then read_message else ret None) w1 = (Val r, wr) /\
             attempts (trace wr) = attempts (trace w1) /\
             wire (trace wr) = wire (trace w1) /\
             draws wr = draws w1 /\ rng wr = rng w1 /\
             send_script wr = send_script w1).
  { destruct conf.
    - pose proof (read_message_quiet w1) as ([m V] & Q).
      destruct (read_message w1) as [r wr]. simpl in V, Q. subst r.
      exists m, wr. split; [reflexivity|]. exact Q.
    - exists None, w1. repeat split. }
  destruct Q as (r & wr & E & A & W & D & R & S). rewrite E.
  assert (O1 : next_outcome wr = nth 1 (send_script w) None).
  { rewrite next_outcome_nth, S. unfold w1, sent. simpl. apply nth_tl. }
  unfold bind at 1.
  rewrite write_message_run;
    [|apply len_device_list|now rewrite O1].
  eexists. split; [reflexivity|].
  rewrite attempts_sent, wire_sent, A, W, O1.
  unfold w1 at 1 2. rewrite attempts_sent, wire_sent, next_outcome_nth.
  rewrite <- !app_assoc. repeat split.
  - unfold sent at 1. simpl. rewrite R. reflexivity.
  - unfold sent at 1. simpl. rewrite D. reflexivity.
  - unfold sent at 1. simpl. rewrite S. reflexivity.
Qed.

(** The five data services: name, sample and the sizes involved. *)
Lemma production_cases (native : Struct.byte_order) (port : N) :
  production port ->
  exists name conf data,
    service port = (name, conf) /\
    canned native port = Some data /\
    (len (identity name) < 2 ^ 32)%N /\
    (0 < len data <= 65535)%N /\
    List.length data <= 60 /\
    ((port = 32079%N /\ name = lit "preview") \/
     (port = 32078%N /\ name = lit "sensor") \/
     (port = 32077%N /\ name = lit "raw") \/
     (port = 32076%N /\ name = lit "configurable") \/
     (port = 32075%N /\ name = lit "console")).
Proof.
  unfold production. simpl.
  intros [<-|[<-|[<-|[<-|[<-|[]]]]]];
    eexists _, _, _;
    (split; [reflexivity|]); (split; [reflexivity|]);
    (split; [now vm_compute|]);
    (split; [destruct native; vm_compute; split;
             (reflexivity || discriminate)|]);
    (split; [destruct native; vm_compute; lia|]);
    auto 10.
Qed.

(** The trace only grows. *)
Lemma chunk_loop_extends (fuel : nat) (msg : bytes) :
  forall (j : nat) (dt : Z) (w : world),
  exists ext, trace (snd (chunk_loop fuel msg j dt w)) = trace w ++ ext.
Proof.
  induction fuel as [|fuel IH]; intros j dt w;
    destruct (Nat.lt_ge_cases j (List.length msg)) as [Hlt|Hge];
    try (rewrite chunk_loop_done by assumption; exists [];
         now rewrite app_nil_r).
  - rewrite chunk_loop_no_fuel by assumption. exists [].
    now rewrite app_nil_r.
  - rewrite chunk_loop_step by assumption. cbv zeta.
    destruct (next_outcome (drawn w)) as [e|] eqn:O.
    + destruct e; cbn [snd]; unfold sent; cbn [trace drawn]; eauto.
    + match goal with
      | |- context [chunk_loop fuel msg ?n ?d ?x] =>
          destruct (IH n d x) as [ext E]
      end.
      rewrite E. unfold log, sent. cbn [trace drawn].
      rewrite <- !app_assoc. eauto.
Qed.

Lemma stream_iteration_extends (fuel : nat) (data : bytes) (w : world) :
  (len data < 2 ^ 32)%N ->
  exists ext, trace (snd (stream_iteration fuel data w)) = trace w ++ ext.
Proof.
  intros Hlen. rewrite (stream_iteration_run fuel data w Hlen). cbv zeta.
  match goal with
  | |- context [chunk_loop fuel ?m 0 ?d ?x] =>
      destruct (chunk_loop_extends fuel m 0 d x) as [ext E];
      destruct (chunk_loop fuel m 0 d x) as [[[dt| |]|e] w']
  end; cbn [snd] in *; change (trace (drawn w)) with (trace w) in E;
    try (now exists ext).
  destruct (0 <? 10000 - dt)%Z; [|now exists ext].
  unfold log. cbn [trace]. rewrite E, <- app_assoc. eauto.
Qed.

Lemma stream_loop_extends (fuel : nat) (data : bytes) :
  (len data < 2 ^ 32)%N ->
  forall (iters : nat) (w : world),
  exists ext, trace (snd (stream_loop fuel iters data w)) = trace w ++ ext.
Proof.
  intros Hlen. induction iters as [|iters IH]; intros w.
  - exists []. simpl. now rewrite app_nil_r.
  - rewrite stream_loop_S.
    destruct (stream_iteration_extends fuel data w Hlen) as [ext E].
    destruct (stream_iteration fuel data w) as [[[dt| |]|e] w1];
      cbn [snd] in *; try (now exists ext).
    destruct (IH w1) as [ext' E']. rewrite E', E, <- app_assoc. eauto.
Qed.

Lemma identity_contains_name (name : bytes) :
  contains (identity name) (lit "name=" ++ dq ++ name ++ dq).
Proof.
  exists (xml_decl ++ lit "<service "), (lit "/>").
  unfold identity.
  change (lit "<service name=") with (lit "<service " ++ lit "name=").
  now rewrite <- !app_assoc.
Qed.

Lemma device_list_one_node (file : source_file) :
  occurrences id_Node (device_list file) = 1 /\
  occurrences key_1 (device_list file) = 1.
Proof. destruct file; split; vm_compute; reflexivity. Qed.

(** ** Write failures *)

Lemma length_copies (k : nat) (m : bytes) :
  List.length (copies k m) = k * List.length m.
Proof.
  induction k as [|k IH]; [reflexivity|].
  rewrite copies_S, length_app, IH. reflexivity.
Qed.

Lemma length_frame (body : bytes) :
  List.length (frame body) = 4 + List.length body.
Proof.
  unfold frame. now rewrite length_app, StructFacts.length_be_bytes.
Qed.

(** A caught write failure on the first chunk of a sample ends the [for]
    loop at once. *)
Lemma stream_loop_write_failure
    (fuel iters : nat) (data : bytes) (w : world) (e : exn) :
  (len data < 2 ^ 32)%N ->
  e = BrokenPipeError \/ e = ConnectionAbortedError ->
  next_outcome w = Some e ->
  fst (stream_loop (S fuel) (S iters) data w) = Val WriteAborted /\
  exists chunk,
    attempts (trace (snd (stream_loop (S fuel) (S iters) data w)))
    = attempts (trace w) ++ [chunk].
Proof.
  intros Hlen He O.
  rewrite stream_loop_S, (stream_iteration_run (S fuel) data w Hlen).
  cbv zeta. set (k := randint_value (rng w (draws w)) 1 5).
  assert (Hk : 1 <= k <= 5) by (apply randint_value_range; lia).
  rewrite chunk_loop_step
    by (rewrite length_copies, length_frame; nia).
  cbv zeta. change (next_outcome (drawn (drawn w))) with (next_outcome w).
  rewrite O.
  destruct He as [-> | ->]; cbn [fst snd]; (split; [reflexivity|]);
    eexists; exact (attempts_sent _ (drawn (drawn w))).
Qed.

(** C10. Write failures during the handshake do not end the session:
    [write_message] turns [BrokenPipeError] and [ConnectionAbortedError]
    into the value [False], [handle] ignores that value, sends the next
    handshake frame all the same and enters the streaming loop; the same
    two failures inside the chunking loop end the session at once, and a
    failure of the raw [sendall] of the diagnostic branch ends it with the
    exception. *)
Theorem handshake_write_failures_are_swallowed
    (native : Struct.byte_order) (file : source_file) (fuel : nat)
    (port : N) (w : world) :
  production port ->
  write_returns (nth 0 (send_script w) None) ->
  write_returns (nth 1 (send_script w) None) ->
  exists name data w2,
    canned native port = Some data /\
    handle native file fuel port w = stream_loop fuel 100 data w2 /\
    attempts (trace w2)
    = attempts (trace w)
      ++ [frame (identity name); frame (device_list file)] /\
    send_script w2 = tl (tl (send_script w)) /\
    (forall (payload : bytes) (w' : world) (e : exn),
        (len payload < 2 ^ 32)%N ->
        e = BrokenPipeError \/ e = ConnectionAbortedError ->
        next_outcome w' = Some e ->
        fst (write_message payload w') = Val false) /\
    (forall (fuel' iters : nat) (w3 : world) (e : exn),
        e = BrokenPipeError \/ e = ConnectionAbortedError ->
        next_outcome w3 = Some e ->
        fst (stream_loop (S fuel') (S iters) data w3) = Val WriteAborted /\
        exists chunk,
          attempts (trace (snd (stream_loop (S fuel') (S iters) data w3)))
          = attempts (trace w3) ++ [chunk]) /\
    (forall (m buf : bytes) (w3 : world) (e : exn),
        select_reply native m = Val buf ->
        next_outcome w3 = Some e ->
        fst (diagnostic native (Some m) w3) = Exc e /\
        attempts (trace (snd (diagnostic native (Some m) w3)))
        = attempts (trace w3) ++ [buf]).
Proof.
  intros Hport H0 H1.
  destruct (production_cases native port Hport)
    as (name & conf & data & Hs & Hc & Hlen & Hdata & _ & _).
  destruct (handle_stream native file fuel port name data conf w
              Hs Hc Hlen H0 H1) as (w2 & E & A & _ & _ & _ & S).
  assert (Hd : (len data < 2 ^ 32)%N)
    by (change (2 ^ 32)%N with 4294967296%N; lia).
  exists name, data, w2.
  split; [exact Hc|]. split; [exact E|]. split; [exact A|].
  split; [exact S|]. split; [|split].
  - intros payload w' e Hp He O.
    rewrite write_message_run; rewrite ?O; try assumption;
      [reflexivity | now destruct He as [-> | ->]].
  - intros fuel' iters w3 e He O.
    now apply stream_loop_write_failure with (e := e).
  - intros m buf w3 e Sel O.
    destruct (diagnostic_run native m buf w3 Sel) as (A' & _ & R).
    rewrite O in R. now split.
Qed.

Lemma handshake_write_failures_are_swallowed_witness :
  nth 0 (send_script failing_handshake_world) None = Some BrokenPipeError /\
  nth 1 (send_script failing_handshake_world) None
  = Some ConnectionAbortedError /\
  fst (handle Struct.LittleEndian TestServer 30 32075
         failing_handshake_world)
  = Val StreamCompleted /\
  exists name data w2,
    canned Struct.LittleEndian 32075 = Some data /\
    handle Struct.LittleEndian TestServer 30 32075 failing_handshake_world
    = stream_loop 30 100 data w2 /\
    attempts (trace w2)
    = attempts (trace failing_handshake_world)
      ++ [frame (identity name); frame (device_list TestServer)] /\
    send_script w2 = tl (tl (send_script failing_handshake_world)) /\
    (forall (payload : bytes) (w' : world) (e : exn),
        (len payload < 2 ^ 32)%N ->
        e = BrokenPipeError \/ e = ConnectionAbortedError ->
        next_outcome w' = Some e ->
        fst (write_message payload w') = Val false) /\
    (forall (fuel' iters : nat) (w3 : world) (e : exn),
        e = BrokenPipeError \/ e = ConnectionAbortedError ->
        next_outcome w3 = Some e ->
        fst (stream_loop (S fuel') (S iters) data w3) = Val WriteAborted /\
        exists chunk,
          attempts (trace (snd (stream_loop (S fuel') (S iters) data w3)))
          = attempts (trace w3) ++ [chunk]) /\
    (forall (m buf : bytes) (w3 : world) (e : exn),
        select_reply Struct.LittleEndian m = Val buf ->
        next_outcome w3 = Some e ->
        fst (diagnostic Struct.LittleEndian (Some m) w3) = Exc e /\
        attempts (trace (snd (diagnostic Struct.LittleEndian (Some m) w3)))
        = attempts (trace w3) ++ [buf]).
Proof.
  split; [reflexivity|]. split; [reflexivity|].
  split; [vm_compute; reflexivity|].
  apply (handshake_write_failures_are_swallowed Struct.LittleEndian
           TestServer 30 32075 failing_handshake_world).
  - unfold production. simpl. auto 10.
  - exact I.
  - exact I.
Defined.

(** ** Termination of the chunking loop *)

(** Cut points equal to the offset make no progress. *)
Lemma chunk_loop_stalls (msg : bytes) :
  0 < List.length msg ->
  forall (fuel : nat) (dt : Z) (w : world),
    (forall i, rng w i = 0) -> send_script w = [] ->
    fst (chunk_loop fuel msg 0 dt w) = Val LoopFuel.
Proof.
  intros Hmsg. induction fuel as [|fuel IH]; intros dt w Hr Hs.
  - now rewrite chunk_loop_no_fuel.
  - rewrite chunk_loop_step by assumption. cbv zeta.
    assert (O : next_outcome (drawn w) = None)
      by (unfold next_outcome, drawn; simpl; now rewrite Hs).
    rewrite O, Hr. unfold randint_value at 1.
    rewrite Nat.Div0.mod_0_l. apply IH.
    + exact Hr.
    + unfold log, sent, drawn. simpl. now rewrite Hs.
Qed.

Lemma failure_free_nth (w : world) (k : nat) :
  failure_free w -> nth k (send_script w) None = None.
Proof.
  unfold failure_free. intros F. revert k.
  induction F as [|o l Ho _ IH]; intros [|k]; simpl; auto.
Qed.

(** C9 (as stated, refuted). With a random source that returns the low end
    of every range, each cut point equals the current offset, which lies in
    the inclusive range from the offset to the buffer length; no write
    fails, yet no amount of fuel lets the chunking loop reach the end of
    the buffer or the session complete. *)
Lemma cut_points_at_offset_never_finish :
  failure_free stalling_world /\
  ~ (exists fuel dt,
        fst (chunk_loop fuel (frame (lit "abc")) 0 0 stalling_world)
        = Val (LoopDone dt)) /\
  ~ (exists fuel,
        fst (handle Struct.LittleEndian TestServer fuel 32075 stalling_world)
        = Val StreamCompleted).
Proof.
  split; [constructor|]. split.
  - intros (fuel & dt & E).
    rewrite (chunk_loop_stalls (frame (lit "abc"))) in E;
      [discriminate|simpl; lia|reflexivity|reflexivity].
  - intros [fuel E].
    destruct (handle_stream Struct.LittleEndian TestServer fuel 32075
                (lit "console") (x00 :: lit "true" ++ [x0a]) false
                stalling_world)
      as (w2 & E0 & _ & _ & R & _ & S);
      [reflexivity|reflexivity|now vm_compute|exact I|exact I|].
    rewrite E0, stream_loop_S, stream_iteration_run in E
      by now vm_compute.
    cbv zeta in E.
    match type of E with
    | context [chunk_loop fuel ?m 0 ?d ?x] =>
        pose proof (chunk_loop_stalls m) as St;
        specialize (St ltac:(rewrite length_copies, length_frame;
                            pose proof (randint_value_range
                                          (rng w2 (draws w2)) 1 5);
                            simpl List.length; nia)
                       fuel d x);
        destruct (chunk_loop fuel m 0 d x) as [r w3]
    end.
    cbn [fst] in St. rewrite St in E; [discriminate| |].
    + intros i. change (rng (drawn w2)) with (rng w2). now rewrite R.
    + change (send_script (drawn w2)) with (send_script w2). now rewrite S.
Qed.

(** When the offset is at the end, nothing more is drawn. *)
Lemma stalls_at_end (r : nat -> nat) (i j size horizon : nat) :
  size <= j -> stalls r i j size horizon = 0.
Proof.
  intros H. apply Nat.ltb_ge in H. destruct horizon; simpl;
    now rewrite ?H.
Qed.

Lemma loop_draws_at_end (r : nat -> nat) (i j size fuel : nat) :
  size <= j -> loop_draws r i j size fuel = 0.
Proof.
  intros H. apply Nat.ltb_ge in H. destruct fuel; simpl; now rewrite ?H.
Qed.

(** Without write failures, fuel for the bytes left and for the stalling
    cut points brings the loop to the end of the buffer. *)
Lemma chunk_loop_finishes (msg : bytes) :
  forall (fuel j : nat) (dt : Z) (w : world),
    failure_free w ->
    stalls (rng w) (draws w) j (List.length msg) fuel
    + (List.length msg - j) <= fuel ->
    exists dt' w',
      chunk_loop fuel msg j dt w = (Val (LoopDone dt'), w') /\
      draws w'
      = draws w + loop_draws (rng w) (draws w) j (List.length msg) fuel /\
      rng w' = rng w /\ failure_free w'.
Proof.
  induction fuel as [|fuel IH]; intros j dt w F A;
    destruct (Nat.lt_ge_cases j (List.length msg)) as [Hlt|Hge];
    try (rewrite chunk_loop_done, loop_draws_at_end by assumption;
         eexists _, _; repeat split; auto).
  - lia.
  - rewrite chunk_loop_step by assumption. cbv zeta.
    rewrite (failure_free_next (drawn w)) by exact F.
    cbn [stalls loop_draws] in *.
    apply Nat.ltb_lt in Hlt as Hlt'. rewrite Hlt' in *. cbv zeta in A.
    pose proof (randint_value_range (rng w (draws w)) j (List.length msg))
      as Hn.
    set (n := randint_value (rng w (draws w)) j (List.length msg)) in *.
    destruct (IH n (dt + 1000)%Z
                (log (EvSleep 1000) (sent (slice msg j n) (drawn w))))
      as (dt' & w' & E & D & R & F').
    + apply (failure_free_sent (slice msg j n) (drawn w)). exact F.
    + cbn [log sent drawn rng draws].
      destruct (n =? j) eqn:En;
        [apply Nat.eqb_eq in En | apply Nat.eqb_neq in En]; lia.
    + exists dt', w'. cbn [log sent drawn rng draws] in D, R.
      split; [exact E|]. split; [lia|]. split; assumption.
Qed.

(** A loop that reaches the end within [fuel] cut points has met at most
    [fuel] stalling ones, however far one goes on counting. *)
Lemma chunk_loop_done_bounds_stalls (msg : bytes) :
  forall (fuel j : nat) (dt : Z) (w : world) (dt' : Z),
    fst (chunk_loop fuel msg j dt w) = Val (LoopDone dt') ->
    forall horizon,
      stalls (rng w) (draws w) j (List.length msg) horizon <= fuel.
Proof.
  induction fuel as [|fuel IH]; intros j dt w dt';
    destruct (Nat.lt_ge_cases j (List.length msg)) as [Hlt|Hge];
    try (intros _ horizon; rewrite stalls_at_end by assumption; lia).
  - rewrite chunk_loop_no_fuel by assumption. discriminate.
  - rewrite chunk_loop_step by assumption. cbv zeta.
    destruct (next_outcome (drawn w)) as [e|];
      [destruct e; discriminate|].
    intros D [|horizon]; [simpl; lia|].
    specialize (IH _ _ _ _ D horizon).
    cbn [log sent drawn rng draws] in IH.
    cbn [stalls]. apply Nat.ltb_lt in Hlt. rewrite Hlt. cbv zeta.
    destruct (_ =? j); lia.
Qed.

Lemma stream_iteration_finishes (fuel : nat) (data : bytes) (w : world) :
  (len data < 2 ^ 32)%N ->
  failure_free w ->
  stalls (rng w) (S (draws w)) 0
    (randint_value (rng w (draws w)) 1 5 * List.length (frame data)) fuel
  + randint_value (rng w (draws w)) 1 5 * List.length (frame data) <= fuel ->
  exists dt w1,
    stream_iteration fuel data w = (Val (LoopDone dt), w1) /\
    draws w1
    = S (draws w)
      + loop_draws (rng w) (S (draws w)) 0
          (randint_value (rng w (draws w)) 1 5 * List.length (frame data))
          fuel /\
    rng w1 = rng w /\ failure_free w1.
Proof.
  intros Hlen F A.
  rewrite (stream_iteration_run fuel data w Hlen). cbv zeta.
  set (k := randint_value (rng w (draws w)) 1 5) in *.
  destruct (chunk_loop_finishes (copies k (frame data)) fuel 0 0%Z (drawn w))
    as (dt' & w' & E & D & R & F').
  - exact F.
  - rewrite length_copies, Nat.sub_0_r. exact A.
  - rewrite E. rewrite length_copies in D. cbn [drawn rng draws] in D, R.
    eexists _, _. split; [reflexivity|].
    now destruct (0 <? 10000 - dt')%Z.
Qed.

Lemma stream_loop_finishes (fuel : nat) (data : bytes) :
  (len data < 2 ^ 32)%N ->
  forall (iters : nat) (w : world),
    failure_free w ->
    session_cuts_suffice (rng w) (List.length (frame data)) fuel iters
      (draws w) = true ->
    fst (stream_loop fuel iters data w) = Val StreamCompleted.
Proof.
  intros Hlen. induction iters as [|iters IH]; intros w F H.
  - reflexivity.
  - cbn [session_cuts_suffice] in H. cbv zeta in H.
    apply andb_true_iff in H as [H1 H2]. apply Nat.leb_le in H1.
    destruct (stream_iteration_finishes fuel data w Hlen F H1)
      as (dt & w1 & E & D & R & F1).
    rewrite stream_loop_S, E. apply IH; [exact F1|].
    now rewrite R, D.
Qed.

(** The first sample goes out whole as soon as its own buffer is sent. *)
Lemma stream_loop_first_sample
    (fuel iters : nat) (data : bytes) (w : world) :
  (len data < 2 ^ 32)%N ->
  failure_free w ->
  stalls (rng w) (S (draws w)) 0
    (randint_value (rng w (draws w)) 1 5 * List.length (frame data)) fuel
  + randint_value (rng w (draws w)) 1 5 * List.length (frame data) <= fuel ->
  exists more,
    wire (trace (snd (stream_loop fuel (S iters) data w)))
    = wire (trace w) ++ frame data ++ more.
Proof.
  intros Hlen F A.
  destruct (stream_iteration_finishes fuel data w Hlen F A)
    as (dt & w1 & E & _ & _ & _).
  destruct (stream_iteration_wire fuel data w Hlen)
    as (k & n & _ & Hk & W & D & _ & _).
  rewrite E in W, D. cbn [fst snd] in W, D.
  rewrite (D dt eq_refl) in W.
  destruct (stream_loop_wire fuel data Hlen iters w1)
    as (ks & k' & n' & _ & _ & Ws & _).
  rewrite stream_loop_S, E, Ws, W.
  destruct k as [|k]; [lia|]. rewrite copies_S, <- !app_assoc. eauto.
Qed.

(** C9 (amended). In the absence of write failures the chunking loop
    reaches the end of the buffer exactly when only boundedly many of its
    cut points equal the current offset (such a cut sends an empty slice and
    makes no progress); and the 100-iteration loop of a data service
    finishes normally when, for each of its 100 buffers, the fuel covers
    the bytes of the buffer and the stalling cut points met on it. *)
Theorem stream_finishes_when_stalls_bounded
    (native : Struct.byte_order) (file : source_file) (fuel : nat)
    (port : N) (data : bytes) (w : world) :
  production port ->
  canned native port = Some data ->
  failure_free w ->
  session_cuts_suffice (rng w) (List.length (frame data)) fuel 100 (draws w)
  = true ->
  fst (handle native file fuel port w) = Val StreamCompleted /\
  forall (msg : bytes) (j : nat) (dt : Z) (w' : world),
    failure_free w' ->
    (exists fuel' dt' w'',
        chunk_loop fuel' msg j dt w' = (Val (LoopDone dt'), w''))
    <->
    (exists bound, forall horizon,
        stalls (rng w') (draws w') j (List.length msg) horizon <= bound).
Proof.
  intros Hport Hc F H. split.
  - destruct (production_cases native port Hport)
      as (name & conf & data' & Hs & Hc' & Hlen & Hdata & _ & _).
    assert (data' = data) by congruence. subst data'.
    destruct (handle_stream native file fuel port name data conf w
                Hs Hc Hlen) as (w2 & E & _ & _ & R & D & S).
    + now rewrite failure_free_nth.
    + now rewrite failure_free_nth.
    + rewrite E. apply stream_loop_finishes.
      * change (2 ^ 32)%N with 4294967296%N. lia.
      * unfold failure_free. rewrite S.
        unfold failure_free in F.
        destruct (send_script w) as [|o [|o' l]]; simpl; auto.
        inversion F as [|? ? _ F']. now inversion F'.
      * now rewrite R, D.
  - intros msg j dt w' F'. split.
    + intros (fuel' & dt' & w'' & E). exists fuel'.
      apply (chunk_loop_done_bounds_stalls msg fuel' j dt w' dt').
      now rewrite E.
    + intros [bound B].
      destruct (chunk_loop_finishes msg (bound + (List.length msg - j)) j dt
                  w' F')
        as (dt' & w'' & E & _).
      * specialize (B (bound + (List.length msg - j))). lia.
      * eauto.
Qed.

Lemma stream_finishes_when_stalls_bounded_witness :
  fst (handle Struct.LittleEndian TestServer 80 32075 jitter_world)
  = Val StreamCompleted /\
  forall (msg : bytes) (j : nat) (dt : Z) (w' : world),
    failure_free w' ->
    (exists fuel' dt' w'',
        chunk_loop fuel' msg j dt w' = (Val (LoopDone dt'), w''))
    <->
    (exists bound, forall horizon,
        stalls (rng w') (draws w') j (List.length msg) horizon <= bound).
Proof.
  apply (stream_finishes_when_stalls_bounded Struct.LittleEndian TestServer
           80 32075 (x00 :: lit "true" ++ [x0a]) jitter_world).
  - unfold production. simpl. auto 10.
  - reflexivity.
  - constructor.
  - vm_compute. reflexivity.
Defined.
(** C6. Handshake ordering: on each of the five data-service ports the
    first two payloads handed to [sendall] are the identity frame, whose
    document contains name="NAME" for the port's service, and the
    device-list frame, whose document contains [id="Node"] once and
    [key="1"] once; every later write comes from the streaming loop, and
    what that loop puts on the wire is a prefix of back-to-back copies of
    the sample frame.  When no write fails and the cut points of the first
    buffer get it sent, the third frame on the wire is the whole sample
    frame; so it is whenever the session runs to its end. *)
Theorem handshake_ordering
    (native : Struct.byte_order) (file : source_file) (fuel : nat)
    (port : N) (w : world) :
  production port ->
  write_returns (nth 0 (send_script w) None) ->
  write_returns (nth 1 (send_script w) None) ->
  exists name data chunks stream,
    ((port = 32079%N /\ name = lit "preview") \/
     (port = 32078%N /\ name = lit "sensor") \/
     (port = 32077%N /\ name = lit "raw") \/
     (port = 32076%N /\ name = lit "configurable") \/
     (port = 32075%N /\ name = lit "console")) /\
    canned native port = Some data /\
    attempts (trace (snd (handle native file fuel port w)))
    = attempts (trace w)
      ++ frame (identity name) :: frame (device_list file) :: chunks /\
    contains (identity name) (lit "name=" ++ dq ++ name ++ dq) /\
    occurrences id_Node (device_list file) = 1 /\
    occurrences key_1 (device_list file) = 1 /\
    wire (trace (snd (handle native file fuel port w)))
    = wire (trace w)
      ++ match nth 0 (send_script w) None with
         | None => frame (identity name)
         | Some _ => []
         end
      ++ match nth 1 (send_script w) None with
         | None => frame (device_list file)
         | Some _ => []
         end
      ++ stream /\
    (exists copies_sent tail,
        stream ++ tail = copies copies_sent (frame data)) /\
    (fst (handle native file fuel port w) = Val StreamCompleted ->
     exists more, stream = frame data ++ more) /\
    (failure_free w ->
     stalls (rng w) (S (draws w)) 0
       (randint_value (rng w (draws w)) 1 5 * List.length (frame data)) fuel
     + randint_value (rng w (draws w)) 1 5 * List.length (frame data)
     <= fuel ->
     exists more,
       stream = frame data ++ more /\
       wire (trace (snd (handle native file fuel port w)))
       = wire (trace w) ++ frame (identity name)
         ++ frame (device_list file) ++ frame data ++ more).
Proof.
  intros Hport H0 H1.
  destruct (production_cases native port Hport)
    as (name & conf & data & Hs & Hc & Hlen & Hdata & _ & Htable).
  destruct (handle_stream native file fuel port name data conf w
              Hs Hc Hlen H0 H1) as (w2 & E & A & W & R & D & Hscr).
  assert (Hd : (len data < 2 ^ 32)%N)
    by (change (2 ^ 32)%N with 4294967296%N; lia).
  destruct (stream_loop_extends fuel data Hd 100 w2) as [ext X].
  destruct (stream_loop_wire fuel data Hd 100 w2)
    as (ks & k & n & Hks & Hl & Ws & Dn & _ & _).
  exists name, data, (attempts ext),
    (List.concat (map (fun k => copies k (frame data)) ks)
     ++ firstn n (copies k (frame data))).
  rewrite E.
  split; [exact Htable|]. split; [exact Hc|].
  split; [rewrite X, attempts_app, A, <- app_assoc; reflexivity|].
  split; [apply identity_contains_name|].
  split; [apply device_list_one_node|].
  split; [apply device_list_one_node|].
  split; [rewrite Ws, W, <- !app_assoc; reflexivity|].
  split; [|split].
  - exists (list_sum ks + k), (skipn n (copies k (frame data))).
    now rewrite <- app_assoc, firstn_skipn, concat_copies, copies_add.
  - intros C. destruct (Dn C) as [Hlen100 ->].
    destruct ks as [|k1 ks]; [discriminate|].
    inversion Hks as [|? ? Hk1 _]; subst.
    destruct k1 as [|k1]; [lia|].
    simpl map. cbn [List.concat]. rewrite copies_S, <- !app_assoc.
    eauto.
  - intros F Hcuts.
    assert (F2 : failure_free w2).
    { unfold failure_free in *. rewrite Hscr.
      destruct (send_script w) as [|o [|o' l]]; simpl; auto.
      inversion F as [|? ? _ F']. now inversion F'. }
    rewrite <- R, <- D in Hcuts.
    destruct (stream_loop_first_sample fuel 99 data w2 Hd F2 Hcuts)
      as [more M].
    change (S 99) with 100 in M. rewrite Ws in M.
    apply app_inv_head in M. exists more. split; [exact M|].
    rewrite Ws, W, M, !failure_free_nth by exact F.
    now rewrite <- !app_assoc.
Qed.

Lemma handshake_ordering_witness :
  fst (handle Struct.LittleEndian MockSdkServer 200 32076
         configurable_client_world)
  = Val StreamCompleted /\
  exists data more,
    canned Struct.LittleEndian 32076 = Some data /\
    wire (trace (snd (handle Struct.LittleEndian MockSdkServer 200 32076
                        configurable_client_world)))
    = wire (trace configurable_client_world)
      ++ frame (identity (lit "configurable"))
      ++ frame (device_list MockSdkServer) ++ frame data ++ more.
Proof.
  split; [vm_compute; reflexivity|].
  destruct (handshake_ordering Struct.LittleEndian MockSdkServer 200 32076
              configurable_client_world)
    as (name & data & chunks & stream & T & Hc & _ & _ & _ & _ & _ & _ & _
        & First).
  - unfold production. simpl. auto 10.
  - exact I.
  - exact I.
  - assert (name = lit "configurable")
      by (destruct T as [[E _]|[[E _]|[[E _]|[[_ E]|[E _]]]]];
          (exact E || discriminate E)).
    subst name.
    assert (Hd : data = List.concat
                          [Struct.field_I Struct.LittleEndian 1;
                           Struct.field_I Struct.LittleEndian 8]
                        ++ List.concat
                             (map (Struct.field_f Struct.LittleEndian)
                                [10; 11; 12; 13; 14; 15; 16; 17]%N)).
    { vm_compute in Hc. injection Hc as <-. vm_compute. reflexivity. }
    destruct First as (more & _ & Wire).
    + constructor.
    + rewrite Hd. vm_compute. lia.
    + exists data, more. split; [exact Hc | exact Wire].
Defined.

(** ** What a client reads back *)

Lemma read_all_frames :
  forall (bodies : list bytes) (fuel : nat) (w : world),
    Forall (fun b => (0 < len b <= 65535)%N) bodies ->
    List.length bodies <= fuel ->
    inbox w = match List.concat (map frame bodies) with
              | [] => []
              | s => [s]
              end ->
    read_all fuel w = bodies.
Proof.
  induction bodies as [|b bs IH]; intros fuel w HF Hfuel Hin.
  - destruct fuel as [|fuel]; [reflexivity|].
    simpl in Hin. cbn [read_all].
    unfold read_message, bind, recv. rewrite Hin. reflexivity.
  - destruct fuel as [|fuel]; [simpl in Hfuel; lia|].
    inversion HF as [|? ? Hb HF']; subst.
    cbn [map List.concat] in Hin.
    assert (Hin' : inbox w
                   = (Struct.be_bytes 4 (len b) ++ b
                      ++ List.concat (map frame bs)) :: []).
    { rewrite Hin. unfold frame. rewrite <- app_assoc.
      destruct (Struct.be_bytes 4 (len b)) eqn:E; [discriminate E|].
      reflexivity. }
    cbn [read_all].
    rewrite (read_message_frame b (List.concat (map frame bs)) [] w Hb Hin').
    f_equal. apply IH; [exact HF'|simpl in Hfuel; lia|].
    cbn [inbox]. now destruct (List.concat (map frame bs)).
Qed.

Lemma length_concat_frames (bodies : list bytes) :
  List.length bodies <= List.length (List.concat (map frame bodies)).
Proof.
  induction bodies as [|b bs IH]; [simpl; lia|].
  cbn [map List.concat]. rewrite length_app, length_frame. simpl. lia.
Qed.

Lemma received_frames (bodies : list bytes) :
  Forall (fun b => (0 < len b <= 65535)%N) bodies ->
  received_messages (List.concat (map frame bodies)) = bodies.
Proof.
  intros HF. destruct bodies as [|b bs]; [reflexivity|].
  unfold received_messages.
  apply read_all_frames; [exact HF|apply length_concat_frames|].
  cbn [map List.concat world_of inbox]. unfold frame at 1 3.
  rewrite <- !app_assoc.
  now destruct (Struct.be_bytes 4 (len b)) eqn:E; [discriminate E|].
Qed.

Lemma copies_frames (k : nat) (body : bytes) :
  copies k (frame body) = List.concat (map frame (repeat body k)).
Proof.
  induction k as [|k IH]; [reflexivity|].
  rewrite copies_S, IH. reflexivity.
Qed.

Lemma nodup_repeat (x : bytes) (k : nat) :
  nodup bytes_eq_dec (repeat x (S k)) = [x].
Proof.
  induction k as [|k IH]; [reflexivity|].
  change (repeat x (S (S k))) with (x :: repeat x (S k)).
  cbn [nodup]. destruct (in_dec bytes_eq_dec x (repeat x (S k))) as [|n];
    [exact IH|].
  exfalso. apply n. now left.
Qed.

Lemma list_sum_bounds (ks : list nat) :
  Forall (fun k => 1 <= k <= 5) ks ->
  List.length ks <= list_sum ks <= 5 * List.length ks.
Proof.
  induction 1 as [|k ks Hk _ IH]; simpl; lia.
Qed.

Lemma identity_len (port : N) (name : bytes) :
  (port = 32079%N /\ name = lit "preview") \/
  (port = 32078%N /\ name = lit "sensor") \/
  (port = 32077%N /\ name = lit "raw") \/
  (port = 32076%N /\ name = lit "configurable") \/
  (port = 32075%N /\ name = lit "console") ->
  (0 < len (identity name) <= 65535)%N.
Proof.
  intros [[_ ->]|[[_ ->]|[[_ ->]|[[_ ->]|[_ ->]]]]];
    vm_compute; split; (reflexivity || discriminate).
Qed.

Lemma device_list_len (file : source_file) :
  (0 < len (device_list file) <= 65535)%N.
Proof.
  destruct file; vm_compute; split; (reflexivity || discriminate).
Qed.

(** C7 (as stated, refuted). In a complete, failure-free session of the
    console service the client reads 200 sample messages after the two
    handshake messages; de-duplicated by content they are one message, not
    100. *)
Lemma deduplicated_samples_are_one :
  failure_free stepping_world /\
  fst stepping_session = Val StreamCompleted /\
  List.length
    (skipn 2 (received_messages (wire (trace (snd stepping_session)))))
  = 200 /\
  nodup bytes_eq_dec
    (skipn 2 (received_messages (wire (trace (snd stepping_session)))))
  = [x00 :: lit "true" ++ [x0a]] /\
  List.length
    (nodup bytes_eq_dec
       (skipn 2 (received_messages (wire (trace (snd stepping_session))))))
  <> 100.
Proof.
  split; [constructor|].
  split; [vm_compute; reflexivity|].
  split; [vm_compute; reflexivity|].
  assert (E : nodup bytes_eq_dec
                (skipn 2 (received_messages
                            (wire (trace (snd stepping_session)))))
              = [x00 :: lit "true" ++ [x0a]])
    by (vm_compute; reflexivity).
  split; [exact E|]. rewrite E. discriminate.
Qed.

(** C7 (amended). A complete, failure-free session of a data service runs
    the streaming loop exactly 100 times: it puts on the wire, after the
    two handshake frames, 100 groups of 1 to 5 copies of the one canned
    sample frame, between 100 and 500 frames in all.  A client reads them
    back as that many equal messages; they are identical on every
    iteration, so de-duplicating them by content leaves exactly one. *)
Theorem session_sends_hundred_groups
    (native : Struct.byte_order) (file : source_file) (fuel : nat)
    (port : N) (w : world) :
  production port ->
  failure_free w ->
  fst (handle native file fuel port w) = Val StreamCompleted ->
  exists name data ks,
    canned native port = Some data /\
    List.length ks = 100 /\
    Forall (fun k => 1 <= k <= 5) ks /\
    wire (trace (snd (handle native file fuel port w)))
    = wire (trace w)
      ++ frame (identity name) ++ frame (device_list file)
      ++ List.concat (map (fun k => copies k (frame data)) ks) /\
    100 <= list_sum ks <= 500 /\
    received_messages
      (frame (identity name) ++ frame (device_list file)
       ++ List.concat (map (fun k => copies k (frame data)) ks))
    = identity name :: device_list file :: repeat data (list_sum ks) /\
    nodup bytes_eq_dec (repeat data (list_sum ks)) = [data].
Proof.
  intros Hport F C.
  destruct (production_cases native port Hport)
    as (name & conf & data & Hs & Hc & Hlen & Hdata & _ & Htable).
  destruct (handle_stream native file fuel port name data conf w
              Hs Hc Hlen) as (w2 & E & _ & W & _);
    [now rewrite failure_free_nth..|].
  rewrite !failure_free_nth in W by exact F.
  assert (Hd : (len data < 2 ^ 32)%N)
    by (change (2 ^ 32)%N with 4294967296%N; lia).
  destruct (stream_loop_wire fuel data Hd 100 w2)
    as (ks & k & n & Hks & _ & Ws & D & _ & _).
  rewrite E in C. destruct (D C) as [Hl ->].
  rewrite firstn_O, app_nil_r in Ws.
  pose proof (list_sum_bounds ks Hks) as Hsum. rewrite Hl in Hsum.
  exists name, data, ks. rewrite E.
  split; [exact Hc|]. split; [exact Hl|]. split; [exact Hks|].
  split; [rewrite Ws, W, <- !app_assoc; reflexivity|].
  split; [simpl in Hsum; lia|]. split.
  - rewrite concat_copies, copies_frames.
    change (frame (identity name) ++ frame (device_list file)
            ++ List.concat (map frame (repeat data (list_sum ks))))
      with (List.concat
              (map frame (identity name :: device_list file
                          :: repeat data (list_sum ks)))).
    apply received_frames.
    constructor; [now apply (identity_len port)|].
    constructor; [apply device_list_len|].
    apply Forall_forall. intros x Hx.
    apply repeat_spec in Hx. now subst.
  - destruct (list_sum ks) as [|s]; [lia|]. apply nodup_repeat.
Qed.

Lemma session_sends_hundred_groups_witness :
  exists name data ks,
    canned Struct.LittleEndian 32075 = Some data /\
    List.length ks = 100 /\
    Forall (fun k => 1 <= k <= 5) ks /\
    wire (trace (snd (handle Struct.LittleEndian TestServer 20 32075
                        stepping_world)))
    = wire (trace stepping_world)
      ++ frame (identity name) ++ frame (device_list TestServer)
      ++ List.concat (map (fun k => copies k (frame data)) ks) /\
    100 <= list_sum ks <= 500 /\
    received_messages
      (frame (identity name) ++ frame (device_list TestServer)
       ++ List.concat (map (fun k => copies k (frame data)) ks))
    = identity name :: device_list TestServer
      :: repeat data (list_sum ks) /\
    nodup bytes_eq_dec (repeat data (list_sum ks)) = [data].
Proof.
  apply (session_sends_hundred_groups Struct.LittleEndian TestServer 20
           32075 stepping_world).
  - unfold production. simpl. auto 10.
  - constructor.
  - vm_compute. reflexivity.
Defined.

(** * Further properties of the handler *)

(** ** Decoder: bounds and short reads *)

(** X1. A message returned by [read_message] has between 1 and 65535
    bytes. *)
Theorem read_message_result_bounds (w : world) (m : bytes) :
  fst (read_message w) = Val (Some m) -> (1 <= len m <= 65535)%N.
Proof.
  unfold read_message, bind.
  destruct (recv 4 w) as [[hd|e] w1]; [|discriminate].
  destruct (negb (List.length hd =? 4)); [discriminate|].
  destruct ((Struct.unpack_I_be hd <=? 0)
            || (65535 <? Struct.unpack_I_be hd))%N eqn:E; [discriminate|].
  apply orb_false_iff in E as [E1 E2].
  apply N.leb_gt in E1. apply N.ltb_ge in E2.
  destruct (recv (N.to_nat (Struct.unpack_I_be hd)) w1) as [[msg|e] w2];
    [|discriminate].
  destruct (len msg =? Struct.unpack_I_be hd)%N eqn:E3; [|discriminate].
  apply N.eqb_eq in E3. cbn. intros H. injection H as <-. lia.
Qed.

Lemma read_message_result_bounds_witness :
  (1 <= len (lit "abc") <= 65535)%N.
Proof.
  apply (read_message_result_bounds (client_sending (lit "abc"))).
  vm_compute. reflexivity.
Defined.

(** X2. No reassembly of the header: when the stream has ended, or its
    first segment holds fewer than 4 bytes, [read_message] returns [None]
    after that single [recv(4)], whatever the later segments hold. *)
Theorem read_message_short_first_segment
    (w : world) (s : bytes) (rest : list bytes) :
  inbox w = [] \/ (inbox w = s :: rest /\ List.length s < 4) ->
  fst (read_message w) = Val None /\
  recvs (trace (snd (read_message w))) = recvs (trace w) ++ [4].
Proof.
  assert (R : forall t e, recvs (t ++ [e])
                          = recvs t ++ recvs [e]).
  { induction t as [|[]]; intros; simpl; rewrite ?IHt; reflexivity. }
  intros [E | [E Hs]]; unfold read_message, bind, recv; rewrite E.
  - simpl. now rewrite R.
  - rewrite firstn_all2 by lia.
    replace (List.length s =? 4) with false
      by (symmetry; apply Nat.eqb_neq; lia).
    simpl. now rewrite R.
Qed.

Lemma read_message_short_first_segment_witness :
  fst (read_message (world_of [[x00; x00]; [x00; x01; x61]] 0)) = Val None /\
  recvs (trace (snd (read_message
                       (world_of [[x00; x00]; [x00; x01; x61]] 0))))
  = recvs (trace (world_of [[x00; x00]; [x00; x01; x61]] 0)) ++ [4].
Proof.
  apply (read_message_short_first_segment
           (world_of [[x00; x00]; [x00; x01; x61]] 0)
           [x00; x00] [[x00; x01; x61]]).
  right. split; [reflexivity | simpl; lia].
Defined.

(** X3. No reassembly of the body: when a frame for [b] arrives with its
    body cut after [i] bytes, [0 < i < len(b)], the rest following in the
    next segment, [read_message] returns [None]. *)
Theorem read_message_split_body
    (w : world) (b : bytes) (i : nat) (rest : list bytes) :
  (0 < len b <= 65535)%N ->
  0 < i < List.length b ->
  inbox w = (Struct.be_bytes 4 (len b) ++ firstn i b) :: skipn i b :: rest ->
  fst (read_message w) = Val None.
Proof.
  intros Hlen Hi E.
  set (hd := Struct.be_bytes 4 (len b)) in *.
  assert (Hhd : List.length hd = 4) by apply StructFacts.length_be_bytes.
  assert (Hv : Struct.unpack_I_be hd = len b).
  { apply StructFacts.unpack_pack_I_be.
    change (2 ^ 32)%N with 4294967296%N. lia. }
  assert (Hf : List.length (firstn i b) = i)
    by (rewrite length_firstn; lia).
  pose proof (recv_buffered hd (firstn i b) (skipn i b :: rest) w E) as R1.
  rewrite Hhd in R1.
  unfold read_message, bind. rewrite R1, Hhd. cbn [Nat.eqb negb].
  rewrite Hv.
  replace ((len b <=? 0)%N) with false by (symmetry; apply N.leb_gt; lia).
  replace ((65535 <? len b)%N) with false by (symmetry; apply N.ltb_ge; lia).
  cbn [orb]. cbv beta iota.
  destruct (firstn i b) as [|c f] eqn:Ef; [simpl in Hf; lia|].
  unfold recv at 1. cbn [inbox log].
  replace (N.to_nat (len b)) with (List.length b)
    by (unfold len; now rewrite Nat2N.id).
  rewrite firstn_all2 by (rewrite Hf; lia).
  replace ((len (c :: f) =? len b)%N) with false; [reflexivity|].
  symmetry. apply N.eqb_neq. unfold len. rewrite Hf. lia.
Qed.

Lemma read_message_split_body_witness :
  fst (read_message
         (world_of [Struct.be_bytes 4 (len (lit "abc"))
                    ++ firstn 1 (lit "abc");
                    skipn 1 (lit "abc")] 0))
  = Val None.
Proof.
  apply (read_message_split_body
           (world_of [Struct.be_bytes 4 (len (lit "abc"))
                      ++ firstn 1 (lit "abc");
                      skipn 1 (lit "abc")] 0)
           (lit "abc") 1 []).
  - vm_compute. split; [reflexivity | discriminate].
  - simpl. lia.
  - reflexivity.
Defined.

(** ** Codec: bodies outside the accepted range, injectivity, streams *)

(** X4. The round trip stops at the range check: [make_message] encodes an
    empty body, and any body longer than 65535 bytes (below [2^32]), but
    [read_message] answers [None] on those frames. *)
Theorem read_message_rejects_out_of_range
    (w : world) (b more : bytes) (rest : list bytes) :
  (len b = 0 \/ 65535 < len b < 2 ^ 32)%N ->
  inbox w = (frame b ++ more) :: rest ->
  make_message b = Val (frame b) /\ fst (read_message w) = Val None.
Proof.
  intros Hlen E.
  assert (Hb : (len b < 2 ^ 32)%N)
    by (change (2 ^ 32)%N with 4294967296%N in *; lia).
  split; [now apply make_message_value|].
  unfold frame in E. rewrite <- app_assoc in E.
  pose proof (recv_buffered (Struct.be_bytes 4 (len b)) (b ++ more) rest w E)
    as R.
  rewrite StructFacts.length_be_bytes in R.
  destruct (read_message_header_check w _ _ R
              (StructFacts.length_be_bytes 4 (len b))) as [Hrej _].
  rewrite Hrej; [reflexivity|].
  rewrite StructFacts.unpack_pack_I_be by exact Hb. lia.
Qed.

Lemma read_message_rejects_out_of_range_witness :
  make_message [] = Val (frame []) /\
  fst (read_message (world_of [frame [] ++ lit "tail"] 0)) = Val None.
Proof.
  apply (read_message_rejects_out_of_range
           (world_of [frame [] ++ lit "tail"] 0) [] (lit "tail") []).
  - left. reflexivity.
  - reflexivity.
Defined.

Lemma make_message_inv (b f : bytes) :
  make_message b = Val f -> f = frame b.
Proof.
  unfold make_message, Struct.pack_I_be.
  destruct (len b <? 2 ^ 32)%N; [|discriminate].
  now intros [= <-].
Qed.

(** X5. [make_message] is injective and adds exactly 4 bytes: two bodies
    with the same encoding are equal. *)
Theorem make_message_injective (a b f : bytes) :
  make_message a = Val f -> make_message b = Val f ->
  a = b /\ List.length f = 4 + List.length a.
Proof.
  intros Ha Hb. apply make_message_inv in Ha, Hb. split.
  - assert (S : forall x, skipn 4 (frame x) = x).
    { intros x. unfold frame.
      rewrite skipn_app, StructFacts.length_be_bytes, Nat.sub_diag.
      rewrite skipn_all2 by (rewrite StructFacts.length_be_bytes; lia).
      reflexivity. }
    rewrite <- (S a), <- (S b). congruence.
  - subst f. apply length_frame.
Qed.

Lemma make_message_injective_witness :
  lit "abc" = lit "abc" /\
  List.length (frame (lit "abc")) = 4 + List.length (lit "abc").
Proof.
  apply (make_message_injective (lit "abc") (lit "abc")
           (frame (lit "abc")));
    reflexivity.
Defined.

(** X6. Stream round trip: when bodies of 1 to 65535 bytes each are
    encoded by [make_message] and the frames sent back to back, calling
    [read_message] until it returns [None] gives back exactly those
    bodies, in order. *)
Theorem read_message_stream_roundtrip (bodies frames : list bytes) :
  Forall (fun b => (0 < len b <= 65535)%N) bodies ->
  Forall2 (fun b f => make_message b = Val f) bodies frames ->
  received_messages (List.concat frames) = bodies.
Proof.
  intros HF H2.
  assert (E : frames = map frame bodies).
  { clear HF. induction H2 as [|b f bs fs Hbf _ IH]; [reflexivity|].
    simpl. now rewrite (make_message_inv b f Hbf), IH. }
  rewrite E. now apply received_frames.
Qed.

Lemma read_message_stream_roundtrip_witness :
  received_messages
    (List.concat [frame (lit "ab"); frame (lit "c"); frame (lit "ab")])
  = [lit "ab"; lit "c"; lit "ab"].
Proof.
  apply (read_message_stream_roundtrip
           [lit "ab"; lit "c"; lit "ab"]
           [frame (lit "ab"); frame (lit "c"); frame (lit "ab")]).
  - repeat constructor; discriminate.
  - repeat constructor.
Defined.

(** X7. Fragmentation resilience: whatever chunks one completed streaming
    iteration writes, a reader that has all of them buffered gets [k] copies
    of the sample out of them with [read_message], [k] being the number
    drawn. *)
Theorem jitter_output_reassembles
    (fuel : nat) (data : bytes) (w : world) (dt : Z) :
  (0 < len data <= 65535)%N ->
  fst (stream_iteration fuel data w) = Val (LoopDone dt) ->
  exists k out,
    k = randint_value (rng w (draws w)) 1 5 /\
    wire (trace (snd (stream_iteration fuel data w)))
    = wire (trace w) ++ out /\
    received_messages out = repeat data k.
Proof.
  intros Hlen D.
  assert (Hd : (len data < 2 ^ 32)%N)
    by (change (2 ^ 32)%N with 4294967296%N; lia).
  destruct (stream_iteration_wire fuel data w Hd)
    as (k & n & Ek & Hk & W & F & _ & _).
  exists k, (copies k (frame data)).
  split; [exact Ek|]. split; [now rewrite W, (F dt D)|].
  rewrite copies_frames. apply received_frames.
  apply Forall_forall. intros x Hx. apply repeat_spec in Hx. now subst.
Qed.

Lemma jitter_output_reassembles_witness :
  exists k out,
    k = randint_value 1 1 5 /\
    wire (trace (snd (stream_iteration 40 (lit "abc")
                        (mkWorld [] [] (fun i => 5 * i + 1) 0 []))))
    = [] ++ out /\
    received_messages out = repeat (lit "abc") k.
Proof.
  apply (jitter_output_reassembles 40 (lit "abc")
           (mkWorld [] [] (fun i => 5 * i + 1) 0 []) 4000).
  - vm_compute. split; [reflexivity | discriminate].
  - vm_compute. reflexivity.
Defined.

(** ** Handshake and diagnostic branch: the error paths *)

Lemma service_identity_len (port : N) :
  exists name conf,
    service port = (name, conf) /\ (len (identity name) < 2 ^ 32)%N.
Proof.
  unfold service.
  repeat match goal with
         | |- context [(port =? ?p)%N] => destruct (port =? p)%N
         end;
    eexists _, _; (split; [reflexivity | now vm_compute]).
Qed.

(** X8. Only two exceptions are swallowed: when the first [sendall] raises
    anything other than [BrokenPipeError] or [ConnectionAbortedError],
    [handle] ends with that exception on every port, having attempted the
    identity frame and nothing else. *)
Theorem handle_identity_write_raises
    (native : Struct.byte_order) (file : source_file) (fuel : nat)
    (port : N) (w : world) (e : exn) :
  next_outcome w = Some e ->
  e <> BrokenPipeError -> e <> ConnectionAbortedError ->
  fst (handle native file fuel port w) = Exc e /\
  exists name,
    fst (service port) = name /\
    trace (snd (handle native file fuel port w))
    = trace w ++ [EvSend (frame (identity name)) (Some e)].
Proof.
  intros O H1 H2.
  destruct (service_identity_len port) as (name & conf & Hs & Hlen).
  unfold handle. rewrite Hs. unfold bind at 1.
  unfold write_message, bind, try_send, lift.
  rewrite (make_message_value _ Hlen). fold (frame (identity name)).
  rewrite sendall_run, O.
  destruct e; try contradiction; cbn [fst snd];
    (split; [reflexivity|]); exists name; (split; [reflexivity|]);
    unfold sent; rewrite O; reflexivity.
Qed.

Lemma handle_identity_write_raises_witness :
  fst (handle Struct.LittleEndian MockSdkServer 10 32078
         (mkWorld [] [Some ConnectionResetError] (fun _ => 1) 0 []))
  = Exc ConnectionResetError /\
  exists name,
    fst (service 32078) = name /\
    trace (snd (handle Struct.LittleEndian MockSdkServer 10 32078
                  (mkWorld [] [Some ConnectionResetError] (fun _ => 1) 0
                     [])))
    = [] ++ [EvSend (frame (identity name)) (Some ConnectionResetError)].
Proof.
  apply (handle_identity_write_raises Struct.LittleEndian MockSdkServer 10
           32078
           (mkWorld [] [Some ConnectionResetError] (fun _ => 1) 0 [])
           ConnectionResetError).
  - reflexivity.
  - discriminate.
  - discriminate.
Defined.

(** X9. No keyword, no reply: when the channel list received on the
    diagnostic port contains none of header, payload, length, xml, [buf] is
    never bound; [handle] ends with [UnboundLocalError] and has attempted
    the two handshake frames only. *)
Theorem diagnostic_without_keyword_raises
    (native : Struct.byte_order) (file : source_file) (fuel : nat)
    (port : N) (msg more : bytes) (rest : list bytes) (w : world) :
  ~ production port ->
  (0 < len msg <= 65535)%N ->
  inbox w = (frame msg ++ more) :: rest ->
  write_returns (nth 0 (send_script w) None) ->
  write_returns (nth 1 (send_script w) None) ->
  ~ contains msg (lit "header") -> ~ contains msg (lit "payload") ->
  ~ contains msg (lit "length") -> ~ contains msg (lit "xml") ->
  fst (handle native file fuel port w) = Exc UnboundLocalError /\
  attempts (trace (snd (handle native file fuel port w)))
  = attempts (trace w)
    ++ [frame (identity (lit "test")); frame (device_list file)].
Proof.
  intros Hport Hlen Hin H0 H1 Nh Np Nl Nx.
  destruct (handle_diagnostic native file fuel port msg more rest w
              Hport Hlen Hin H0 H1) as (w2 & E & A & _ & _).
  rewrite E. unfold diagnostic, bind, lift, select_reply.
  apply find_not_contains in Nh, Np, Nl, Nx.
  rewrite Nh, Np, Nl, Nx. cbn [fst snd]. now split.
Qed.

Lemma diagnostic_without_keyword_raises_witness :
  fst (handle Struct.LittleEndian TestServer 0 32000
         (client_sending (lit "Lq,Gq")))
  = Exc UnboundLocalError /\
  attempts (trace (snd (handle Struct.LittleEndian TestServer 0 32000
                          (client_sending (lit "Lq,Gq")))))
  = attempts (trace (client_sending (lit "Lq,Gq")))
    ++ [frame (identity (lit "test")); frame (device_list TestServer)].
Proof.
  assert (N : forall k, negb (find (lit "Lq,Gq") k =? -1)%Z = false ->
                        ~ contains (lit "Lq,Gq") k)
    by (intros k; apply find_not_contains).
  apply (diagnostic_without_keyword_raises Struct.LittleEndian TestServer 0
           32000 (lit "Lq,Gq") [] []).
  - unfold production. simpl. intuition discriminate.
  - vm_compute. split; [reflexivity | discriminate].
  - reflexivity.
  - exact I.
  - exact I.
  - apply N. reflexivity.
  - apply N. reflexivity.
  - apply N. reflexivity.
  - apply N. reflexivity.
Defined.

(** What [read_message] returns depends on the pending input only. *)
Lemma read_message_inbox (w1 w2 : world) :
  inbox w1 = inbox w2 -> fst (read_message w1) = fst (read_message w2).
Proof.
  intros E. unfold read_message, bind, recv, log. rewrite E.
  destruct (inbox w2) as [|c rest]; cbn [fst snd inbox]; [reflexivity|].
  destruct (negb (List.length (firstn 4 c) =? 4)); [reflexivity|].
  destruct ((Struct.unpack_I_be (firstn 4 c) <=? 0)
            || (65535 <? Struct.unpack_I_be (firstn 4 c)))%N; [reflexivity|].
  cbn [inbox].
  destruct (skipn 4 c) as [|s0 s]; [destruct rest as [|c' rest']|];
    cbn [fst snd];
    match goal with
    | |- context [negb ?b] => destruct (negb b); reflexivity
    end.
Qed.

(** X10. No channel list: when [read_message] finds no valid frame (end of
    stream, short header, rejected length or short body) on the diagnostic
    port, [msg] is [None] and [handle] ends with [AttributeError] at the
    first [msg.find], after both handshake frames and before any reply. *)
Theorem diagnostic_without_channel_list_raises
    (native : Struct.byte_order) (file : source_file) (fuel : nat)
    (port : N) (w : world) :
  ~ production port ->
  fst (read_message w) = Val None ->
  write_returns (nth 0 (send_script w) None) ->
  write_returns (nth 1 (send_script w) None) ->
  fst (handle native file fuel port w) = Exc AttributeError /\
  attempts (trace (snd (handle native file fuel port w)))
  = attempts (trace w)
    ++ [frame (identity (lit "test")); frame (device_list file)].
Proof.
  intros Hport Hnone H0 H1.
  set (w1 := sent (frame (identity (lit "test"))) w).
  assert (E : exists wr,
             handle native file fuel port w
             = (Exc AttributeError, sent (frame (device_list file)) wr) /\
             attempts (trace wr) = attempts (trace w1)).
  { unfold handle. rewrite (service_diagnostic port Hport).
    rewrite (canned_diagnostic native port Hport).
    unfold bind at 1.
    rewrite write_message_run;
      [|exact len_identity_test|now rewrite next_outcome_nth].
    fold w1. unfold bind at 1.
    pose proof (read_message_quiet w1) as (_ & A & _ & _ & _ & S).
    assert (V : fst (read_message w1) = Val None)
      by (rewrite <- Hnone; now apply read_message_inbox).
    destruct (read_message w1) as [r wr]. cbn [fst snd] in *. subst r.
    unfold bind at 1.
    rewrite write_message_run;
      [|apply len_device_list
       |rewrite next_outcome_nth, S; unfold w1, sent; simpl;
        now rewrite nth_tl].
    exists wr. split; [reflexivity | exact A]. }
  destruct E as (wr & E & A). rewrite E. cbn [fst snd].
  split; [reflexivity|].
  rewrite attempts_sent, A. unfold w1. rewrite attempts_sent.
  now rewrite <- app_assoc.
Qed.

Lemma diagnostic_without_channel_list_raises_witness :
  fst (handle Struct.BigEndian MockSdkServer 0 32000 (world_of [] 0))
  = Exc AttributeError /\
  attempts (trace (snd (handle Struct.BigEndian MockSdkServer 0 32000
                          (world_of [] 0))))
  = attempts (trace (world_of [] 0))
    ++ [frame (identity (lit "test")); frame (device_list MockSdkServer)].
Proof.
  apply (diagnostic_without_channel_list_raises Struct.BigEndian
           MockSdkServer 0 32000 (world_of [] 0)).
  - unfold production. simpl. intuition discriminate.
  - reflexivity.
  - exact I.
  - exact I.
Defined.

(** X11. A whole diagnostic session with a client that sends its channel
    list and then nothing: the handler writes the identity frame, reads the
    list with two [recv] calls, writes the device-list frame and the reply,
    and then either blocks in one more [recv(4)] (the list contains
    [timeout]; here the read meets the end of the stream) or sleeps 250 ms;
    it returns normally and does nothing else. *)
Theorem diagnostic_session_trace
    (native : Struct.byte_order) (file : source_file) (fuel : nat)
    (port : N) (msg buf : bytes) (r : nat -> nat) (d : nat) :
  ~ production port ->
  (0 < len msg <= 65535)%N ->
  select_reply native msg = Val buf ->
  exists last,
    handle native file fuel port (mkWorld [frame msg] [] r d [])
    = (Val DiagnosticDone,
       mkWorld [] [] r d
         [EvSend (frame (identity (lit "test"))) None;
          EvRecv 4 (Struct.be_bytes 4 (len msg));
          EvRecv (List.length msg) msg;
          EvSend (frame (device_list file)) None;
          EvSend buf None;
          last]) /\
    (contains msg (lit "timeout") -> last = EvRecv 4 []) /\
    (~ contains msg (lit "timeout") -> last = EvSleep 250000).
Proof.
  intros Hport Hlen Sel.
  exists (if negb (find msg (lit "timeout") =? -1)%Z
          then EvRecv 4 [] else EvSleep 250000).
  split.
  - unfold handle. rewrite (service_diagnostic port Hport).
    rewrite (canned_diagnostic native port Hport).
    unfold bind at 1.
    rewrite write_message_run; [|exact len_identity_test|exact I].
    unfold bind at 1.
    rewrite (read_message_frame msg [] []);
      [|exact Hlen
       |cbn [sent inbox]; unfold frame; now rewrite app_nil_r].
    unfold bind at 1.
    rewrite write_message_run; [|apply len_device_list|exact I].
    unfold diagnostic, bind at 1, lift. rewrite Sel.
    unfold bind at 1. rewrite sendall_run.
    cbn [sent next_outcome send_script inbox rng draws trace tl app].
    unfold bind at 1.
    destruct (negb (find msg (lit "timeout") =? -1)%Z); reflexivity.
  - split; intros H.
    + apply find_contains in H. now rewrite H.
    + apply find_not_contains in H. now rewrite H.
Qed.

Lemma diagnostic_session_trace_witness :
  exists last,
    handle Struct.LittleEndian TestServer 0 32000
      (mkWorld [frame (lit "xml timeout")] [] (fun _ => 0) 0 [])
    = (Val DiagnosticDone,
       mkWorld [] [] (fun _ => 0) 0
         [EvSend (frame (identity (lit "test"))) None;
          EvRecv 4 (Struct.be_bytes 4 (len (lit "xml timeout")));
          EvRecv (List.length (lit "xml timeout")) (lit "xml timeout");
          EvSend (frame (device_list TestServer)) None;
          EvSend (frame (lit "<?xm")) None;
          last]) /\
    (contains (lit "xml timeout") (lit "timeout") -> last = EvRecv 4 []) /\
    (~ contains (lit "xml timeout") (lit "timeout") ->
     last = EvSleep 250000).
Proof.
  apply (diagnostic_session_trace Struct.LittleEndian TestServer 0 32000
           (lit "xml timeout") (frame (lit "<?xm")) (fun _ => 0) 0).
  - unfold production. simpl. intuition discriminate.
  - vm_compute. split; [reflexivity | discriminate].
  - reflexivity.
Defined.

(** X12. Of the four diagnostic replies only the [xml] one is a frame the
    server's own [read_message] accepts (it decodes to the 4 bytes
    [<?xm]); the [header], [payload] and [length] replies are each
    rejected: too short a header, 20 of 40 declared bytes, a declared
    length of 65536. *)
Theorem diagnostic_reply_decoding
    (native : Struct.byte_order) (msg buf : bytes) (r : nat) :
  select_reply native msg = Val buf ->
  (contains msg (lit "header") \/ contains msg (lit "payload") \/
   contains msg (lit "length") ->
   fst (read_message (world_of [buf] r)) = Val None) /\
  (~ contains msg (lit "header") -> ~ contains msg (lit "payload") ->
   ~ contains msg (lit "length") ->
   fst (read_message (world_of [buf] r)) = Val (Some (lit "<?xm"))).
Proof.
  unfold select_reply.
  destruct (negb (find msg (lit "header") =? -1)%Z) eqn:Eh.
  { apply find_contains in Eh. intros [= <-]. split; [intros _|tauto].
    destruct native; reflexivity. }
  apply find_not_contains in Eh.
  destruct (negb (find msg (lit "payload") =? -1)%Z) eqn:Ep.
  { apply find_contains in Ep. intros [= <-]. split; [intros _|tauto].
    reflexivity. }
  apply find_not_contains in Ep.
  destruct (negb (find msg (lit "length") =? -1)%Z) eqn:El.
  { apply find_contains in El. intros [= <-]. split; [intros _|tauto].
    reflexivity. }
  apply find_not_contains in El.
  destruct (negb (find msg (lit "xml") =? -1)%Z); [|discriminate].
  intros [= <-]. split; [tauto|]. intros _ _ _. reflexivity.
Qed.

Lemma diagnostic_reply_decoding_witness :
  (contains (lit "payload,length") (lit "header") \/
   contains (lit "payload,length") (lit "payload") \/
   contains (lit "payload,length") (lit "length") ->
   fst (read_message (world_of [pack_bad_frame 40] 0)) = Val None) /\
  (~ contains (lit "payload,length") (lit "header") ->
   ~ contains (lit "payload,length") (lit "payload") ->
   ~ contains (lit "payload,length") (lit "length") ->
   fst (read_message (world_of [pack_bad_frame 40] 0))
   = Val (Some (lit "<?xm"))).
Proof.
  apply (diagnostic_reply_decoding Struct.LittleEndian
           (lit "payload,length") (pack_bad_frame 40) 0).
  reflexivity.
Defined.

(** X13. The channel list is always read before the diagnostic branch
    looks at it: a port without a canned sample is none of the five
    data-service ports and is configurable, so [msg] is bound whenever
    [msg.find] is reached. *)
Theorem diagnostic_branch_has_channel_list
    (native : Struct.byte_order) (port : N) :
  canned native port = None ->
  service port = (lit "test", true) /\ ~ production port.
Proof.
  intros E.
  assert (H : ~ production port).
  { intros Hp.
    destruct (production_cases native port Hp)
      as (? & ? & data & _ & Hc & _).
    congruence. }
  split; [now apply service_diagnostic | exact H].
Qed.

Lemma diagnostic_branch_has_channel_list_witness :
  service 32000 = (lit "test", true) /\ ~ production 32000.
Proof.
  apply (diagnostic_branch_has_channel_list Struct.LittleEndian 32000).
  reflexivity.
Defined.

(** ** Data services: what the session never does *)

Lemma recvs_app (t1 t2 : list event) :
  recvs (t1 ++ t2) = recvs t1 ++ recvs t2.
Proof.
  induction t1 as [|[d o|n g|z] t1 IH]; simpl; rewrite ?IH; reflexivity.
Qed.

Lemma reads_nothing_ret {A} (a : A) : reads_nothing (ret a).
Proof. intros w. now split. Qed.

Lemma reads_nothing_lift {A} (r : res A) : reads_nothing (lift r).
Proof. intros w. now split. Qed.

Lemma reads_nothing_bind {A B} (m : M A) (f : A -> M B) :
  reads_nothing m -> (forall a, reads_nothing (f a)) ->
  reads_nothing (bind m f).
Proof.
  intros Hm Hf w. unfold bind. specialize (Hm w).
  destruct (m w) as [[a|e] w1]; cbn [snd] in Hm.
  - destruct (Hf a w1) as [I1 R1]. destruct Hm as [I0 R0].
    split; congruence.
  - exact Hm.
Qed.

Lemma reads_nothing_try_send {A} (m : M A) :
  reads_nothing m -> reads_nothing (try_send m).
Proof.
  intros Hm w. unfold try_send. specialize (Hm w).
  destruct (m w) as [[a|[]] w1]; exact Hm.
Qed.

Lemma reads_nothing_sendall (d : bytes) : reads_nothing (sendall d).
Proof.
  intros w. rewrite sendall_run. unfold sent. cbn [snd inbox trace].
  rewrite recvs_app. simpl. now rewrite app_nil_r.
Qed.

Lemma reads_nothing_sleep (z : Z) : reads_nothing (sleep z).
Proof.
  intros w. unfold sleep, log. cbn [snd inbox trace].
  rewrite recvs_app. simpl. now rewrite app_nil_r.
Qed.

Lemma reads_nothing_randint (a b : nat) : reads_nothing (randint a b).
Proof. intros w. now split. Qed.

Lemma reads_nothing_write_message (d : bytes) :
  reads_nothing (write_message d).
Proof.
  unfold write_message. apply reads_nothing_bind.
  - apply reads_nothing_try_send, reads_nothing_bind;
      [apply reads_nothing_lift | intros; apply reads_nothing_sendall].
  - intros [|]; apply reads_nothing_ret.
Qed.

Lemma reads_nothing_chunk_loop (msg : bytes) :
  forall (fuel j : nat) (dt : Z), reads_nothing (chunk_loop fuel msg j dt).
Proof.
  induction fuel as [|fuel IH]; intros j dt; cbn [chunk_loop];
    destruct (j <? List.length msg); try apply reads_nothing_ret.
  apply reads_nothing_bind; [apply reads_nothing_randint|]. intros n.
  apply reads_nothing_bind;
    [apply reads_nothing_try_send, reads_nothing_sendall|].
  intros [u|e]; [|apply reads_nothing_ret].
  apply reads_nothing_bind; [apply reads_nothing_sleep|]. intros _.
  apply IH.
Qed.

Lemma reads_nothing_stream_loop (fuel : nat) (data : bytes) :
  forall iters : nat, reads_nothing (stream_loop fuel iters data).
Proof.
  induction iters as [|iters IH]; cbn [stream_loop];
    [apply reads_nothing_ret|].
  apply reads_nothing_bind.
  - unfold stream_iteration.
    apply reads_nothing_bind; [apply reads_nothing_lift|]. intros m.
    apply reads_nothing_bind; [apply reads_nothing_randint|]. intros k.
    apply reads_nothing_bind; [apply reads_nothing_chunk_loop|].
    intros [dt| |]; try apply reads_nothing_ret.
    apply reads_nothing_bind; [|intros; apply reads_nothing_ret].
    destruct (0 <? 10000 - dt)%Z;
      [apply reads_nothing_sleep | apply reads_nothing_ret].
  - intros [dt| |]; [apply IH | apply reads_nothing_ret..].
Qed.

(** X14. The preview, sensor, raw and console services never read from the
    socket: whatever the client has sent stays unread and no [recv] is
    issued, however the session ends. *)
Theorem plain_services_never_read
    (native : Struct.byte_order) (file : source_file) (fuel : nat)
    (port : N) (w : world) :
  In port [32075; 32077; 32078; 32079]%N ->
  inbox (snd (handle native file fuel port w)) = inbox w /\
  recvs (trace (snd (handle native file fuel port w))) = recvs (trace w).
Proof.
  intros Hport. revert w. change (reads_nothing (handle native file fuel port)).
  simpl in Hport.
  destruct Hport as [<-|[<-|[<-|[<-|[]]]]]; unfold handle;
    cbn [service canned N.eqb Pos.eqb];
    (apply reads_nothing_bind; [apply reads_nothing_write_message|]);
    intros _;
    (apply reads_nothing_bind; [apply reads_nothing_ret|]); intros _;
    (apply reads_nothing_bind; [apply reads_nothing_write_message|]);
    intros _; apply reads_nothing_stream_loop.
Qed.

Lemma plain_services_never_read_witness :
  inbox (snd (handle Struct.LittleEndian TestServer 30 32077
                (mkWorld [lit "unread"] [] (fun i => 5 * i + 1) 0 [])))
  = inbox (mkWorld [lit "unread"] [] (fun i => 5 * i + 1) 0 []) /\
  recvs (trace (snd (handle Struct.LittleEndian TestServer 30 32077
                       (mkWorld [lit "unread"] [] (fun i => 5 * i + 1) 0
                          []))))
  = recvs (trace (mkWorld [lit "unread"] [] (fun i => 5 * i + 1) 0 [])).
Proof.
  apply (plain_services_never_read Struct.LittleEndian TestServer 30 32077
           (mkWorld [lit "unread"] [] (fun i => 5 * i + 1) 0 [])).
  simpl. auto.
Defined.

(** ** Data services: how a session can end *)

Lemma caught_only_next (w : world) :
  caught_only w -> write_returns (next_outcome w).
Proof.
  unfold caught_only, next_outcome.
  destruct (send_script w); [intros _; exact I | now inversion 1].
Qed.

Lemma caught_only_nth (w : world) (k : nat) :
  caught_only w -> write_returns (nth k (send_script w) None).
Proof.
  unfold caught_only. intros F. revert k.
  induction F as [|o l Ho _ IH]; intros [|k]; simpl; auto; exact I.
Qed.

Lemma caught_only_sent (d : bytes) (w : world) :
  caught_only w -> caught_only (sent d w).
Proof.
  unfold caught_only, sent. simpl.
  destruct (send_script w); simpl; [auto | now inversion 1].
Qed.

Lemma failure_free_caught_only (w : world) :
  failure_free w -> caught_only w.
Proof.
  unfold failure_free, caught_only. intros F.
  eapply Forall_impl; [|exact F]. intros o ->. exact I.
Qed.

(** The chunking loop under scripts of caught failures: it returns, and it
    takes its [return] only when a write fails. *)
Lemma chunk_loop_outcomes (msg : bytes) :
  forall (fuel j : nat) (dt : Z) (w : world),
    caught_only w ->
    caught_only (snd (chunk_loop fuel msg j dt w)) /\
    (exists x, fst (chunk_loop fuel msg j dt w) = Val x) /\
    (failure_free w ->
     fst (chunk_loop fuel msg j dt w) <> Val LoopReturn /\
     failure_free (snd (chunk_loop fuel msg j dt w))).
Proof.
  induction fuel as [|fuel IH]; intros j dt w C;
    destruct (Nat.lt_ge_cases j (List.length msg)) as [Hlt|Hge];
    try (rewrite chunk_loop_done by assumption; cbn [fst snd];
         split; [assumption|]; split; [eauto|]; intros F; split;
         [discriminate | assumption]).
  - rewrite chunk_loop_no_fuel by assumption. cbn [fst snd].
    split; [assumption|]. split; [eauto|]. intros F.
    split; [discriminate | assumption].
  - rewrite chunk_loop_step by assumption. cbv zeta.
    set (n := randint_value (rng w (draws w)) j (List.length msg)).
    pose proof (caught_only_next (drawn w) C) as Hn.
    pose proof (caught_only_sent (slice msg j n) (drawn w) C) as Cs.
    destruct (next_outcome (drawn w)) as [e|] eqn:O.
    + destruct e; try contradiction; cbn [fst snd];
        (split; [exact Cs|]); (split; [eauto|]); intros F;
        rewrite (failure_free_next (drawn w) F) in O; discriminate.
    + destruct (IH n (dt + 1000)%Z
                  (log (EvSleep 1000) (sent (slice msg j n) (drawn w))) Cs)
        as (C' & V & F').
      split; [exact C'|]. split; [exact V|]. intros F. apply F'.
      apply (failure_free_sent (slice msg j n) (drawn w) F).
Qed.

Lemma stream_loop_outcomes (fuel : nat) (data : bytes) :
  (len data < 2 ^ 32)%N ->
  forall (iters : nat) (w : world),
    caught_only w ->
    (fst (stream_loop fuel iters data w) = Val StreamCompleted \/
     fst (stream_loop fuel iters data w) = Val WriteAborted \/
     fst (stream_loop fuel iters data w) = Val OutOfFuel) /\
    (failure_free w ->
     fst (stream_loop fuel iters data w) <> Val WriteAborted).
Proof.
  intros Hlen. induction iters as [|iters IH]; intros w C.
  - split; [now left | discriminate].
  - rewrite stream_loop_S, (stream_iteration_run fuel data w Hlen).
    cbv zeta.
    match goal with
    | |- context [chunk_loop fuel ?m 0 ?d (drawn w)] =>
        destruct (chunk_loop_outcomes m fuel 0 d (drawn w) C)
          as (C' & [x V] & F');
        destruct (chunk_loop fuel m 0 d (drawn w)) as [r w']
    end.
    cbn [fst snd] in *. subst r.
    destruct x as [dt| |].
    + assert (Cw : forall b : bool,
                 caught_only (if b then log (EvSleep (10000 - dt)) w'
                              else w'))
        by (intros []; exact C').
      destruct (IH _ (Cw (0 <? 10000 - dt)%Z)) as [O N].
      split; [exact O|]. intros F. apply N.
      destruct (F' F) as [_ Fw]. now destruct (0 <? 10000 - dt)%Z.
    + split; [auto|]. intros F. now destruct (F' F).
    + split; [auto|]. discriminate.
Qed.

Lemma plain_ports_production (port : N) :
  In port [32075; 32077; 32078; 32079]%N -> production port.
Proof.
  unfold production. simpl. intuition.
Qed.

(** X15. On the preview, sensor, raw and console ports, where the handler
    never reads, no exception escapes [handle] as long as every failing
    [sendall] raises [BrokenPipeError] or [ConnectionAbortedError]: the
    session ends by completing its loop or by the [return] of an [except]
    clause (or, in the model, by exhausting the fuel of a [while] loop that
    would run on). *)
Theorem data_service_never_raises
    (native : Struct.byte_order) (file : source_file) (fuel : nat)
    (port : N) (w : world) :
  In port [32075; 32077; 32078; 32079]%N ->
  caught_only w ->
  fst (handle native file fuel port w) = Val StreamCompleted \/
  fst (handle native file fuel port w) = Val WriteAborted \/
  fst (handle native file fuel port w) = Val OutOfFuel.
Proof.
  intros Hplain C.
  pose proof (plain_ports_production port Hplain) as Hport.
  destruct (production_cases native port Hport)
    as (name & conf & data & Hs & Hc & Hlen & Hdata & _ & _).
  destruct (handle_stream native file fuel port name data conf w
              Hs Hc Hlen (caught_only_nth w 0 C) (caught_only_nth w 1 C))
    as (w2 & E & _ & _ & _ & _ & S).
  rewrite E. apply stream_loop_outcomes.
  - change (2 ^ 32)%N with 4294967296%N. lia.
  - unfold caught_only in *. rewrite S.
    destruct (send_script w) as [|o [|o' l]]; simpl; auto.
    inversion C as [|? ? _ C']. now inversion C'.
Qed.

Lemma data_service_never_raises_witness :
  fst (handle Struct.LittleEndian TestServer 30 32075
         (mkWorld [] [None; None; None; Some BrokenPipeError]
            (fun i => 5 * i + 1) 0 []))
  = Val WriteAborted /\
  (fst (handle Struct.LittleEndian TestServer 30 32075
          (mkWorld [] [None; None; None; Some BrokenPipeError]
             (fun i => 5 * i + 1) 0 []))
   = Val StreamCompleted \/
   fst (handle Struct.LittleEndian TestServer 30 32075
          (mkWorld [] [None; None; None; Some BrokenPipeError]
             (fun i => 5 * i + 1) 0 []))
   = Val WriteAborted \/
   fst (handle Struct.LittleEndian TestServer 30 32075
          (mkWorld [] [None; None; None; Some BrokenPipeError]
             (fun i => 5 * i + 1) 0 []))
   = Val OutOfFuel).
Proof.
  split; [vm_compute; reflexivity|].
  apply (data_service_never_raises Struct.LittleEndian TestServer 30 32075
           (mkWorld [] [None; None; None; Some BrokenPipeError]
              (fun i => 5 * i + 1) 0 [])).
  - simpl. auto.
  - repeat constructor.
Defined.

(** X16. On the preview, sensor, raw and console ports a session is cut
    short only by a write failure: when no [sendall] fails, [handle] does
    not take the [return] of an [except] clause and raises nothing. *)
Theorem data_service_aborts_only_on_failure
    (native : Struct.byte_order) (file : source_file) (fuel : nat)
    (port : N) (w : world) :
  In port [32075; 32077; 32078; 32079]%N ->
  failure_free w ->
  fst (handle native file fuel port w) = Val StreamCompleted \/
  fst (handle native file fuel port w) = Val OutOfFuel.
Proof.
  intros Hplain F.
  pose proof (plain_ports_production port Hplain) as Hport.
  pose proof (failure_free_caught_only w F) as C.
  destruct (production_cases native port Hport)
    as (name & conf & data & Hs & Hc & Hlen & Hdata & _ & _).
  destruct (handle_stream native file fuel port name data conf w
              Hs Hc Hlen (caught_only_nth w 0 C) (caught_only_nth w 1 C))
    as (w2 & E & _ & _ & _ & _ & S).
  rewrite E.
  assert (F2 : failure_free w2).
  { unfold failure_free in *. rewrite S.
    destruct (send_script w) as [|o [|o' l]]; simpl; auto.
    inversion F as [|? ? _ F']. now inversion F'. }
  destruct (stream_loop_outcomes fuel data
              ltac:(change (2 ^ 32)%N with 4294967296%N; lia) 100 w2
              (failure_free_caught_only w2 F2)) as [[O|[O|O]] N]; auto.
  exfalso. now apply (N F2).
Qed.

Lemma data_service_aborts_only_on_failure_witness :
  fst (handle Struct.BigEndian MockSdkServer 250 32078 jitter_world)
  = Val StreamCompleted /\
  (fst (handle Struct.BigEndian MockSdkServer 250 32078 jitter_world)
   = Val StreamCompleted \/
   fst (handle Struct.BigEndian MockSdkServer 250 32078 jitter_world)
   = Val OutOfFuel).
Proof.
  split; [vm_compute; reflexivity|].
  apply (data_service_aborts_only_on_failure Struct.BigEndian MockSdkServer
           250 32078 jitter_world).
  - simpl. auto.
  - constructor.
Defined.

(** ** Pacing *)

Lemma slept_app (t1 t2 : list event) :
  slept (t1 ++ t2) = (slept t1 + slept t2)%Z.
Proof.
  induction t1 as [|[d o|n g|z] t1 IH]; simpl; rewrite ?IH; lia.
Qed.

(** On normal exit the loop has slept 1 ms per chunk written, and [dt] has
    counted those milliseconds. *)
Lemma chunk_loop_sleep (msg : bytes) :
  forall (fuel j : nat) (dt : Z) (w : world) (dt' : Z),
    fst (chunk_loop fuel msg j dt w) = Val (LoopDone dt') ->
    exists c : nat,
      (dt' = dt + 1000 * Z.of_nat c)%Z /\
      (slept (trace (snd (chunk_loop fuel msg j dt w)))
       = slept (trace w) + 1000 * Z.of_nat c)%Z /\
      List.length (attempts (trace (snd (chunk_loop fuel msg j dt w))))
      = List.length (attempts (trace w)) + c.
Proof.
  induction fuel as [|fuel IH]; intros j dt w dt';
    destruct (Nat.lt_ge_cases j (List.length msg)) as [Hlt|Hge];
    try (rewrite chunk_loop_done by assumption; cbn [fst snd];
         intros [= <-]; exists 0; repeat split; lia).
  - rewrite chunk_loop_no_fuel by assumption. discriminate.
  - rewrite chunk_loop_step by assumption. cbv zeta.
    set (n := randint_value (rng w (draws w)) j (List.length msg)).
    destruct (next_outcome (drawn w)) as [e|] eqn:O;
      [destruct e; discriminate|].
    intros D. destruct (IH _ _ _ _ D) as (c & E1 & E2 & E3).
    exists (S c). rewrite E2, E3.
    unfold log, sent. cbn [trace drawn]. rewrite O.
    rewrite !slept_app, !attempts_app, !length_app.
    cbn [slept attempts List.length]. rewrite Nat2Z.inj_succ.
    repeat split; lia.
Qed.

(** X17. The per-sample budget: a completed streaming iteration that wrote
    [c] chunks has slept 1 ms after each and then the rest of 10 ms if any
    is left, in all the larger of 10 ms and [c] ms (exact arithmetic on
    microseconds). *)
Theorem stream_iteration_sleep_budget
    (fuel : nat) (data : bytes) (w : world) (dt : Z) :
  (len data < 2 ^ 32)%N ->
  fst (stream_iteration fuel data w) = Val (LoopDone dt) ->
  exists c : nat,
    List.length (attempts (trace (snd (stream_iteration fuel data w))))
    = List.length (attempts (trace w)) + c /\
    (slept (trace (snd (stream_iteration fuel data w)))
     = slept (trace w) + Z.max 10000 (1000 * Z.of_nat c))%Z.
Proof.
  intros Hlen. rewrite (stream_iteration_run fuel data w Hlen). cbv zeta.
  match goal with
  | |- context [chunk_loop fuel ?m 0 ?d (drawn w)] =>
      pose proof (chunk_loop_sleep m fuel 0 d (drawn w)) as S;
      destruct (chunk_loop fuel m 0 d (drawn w)) as [[[dt0| |]|e] w']
  end; cbn [fst snd] in *; try discriminate.
  intros _. destruct (S dt0 eq_refl) as (c & E1 & E2 & E3).
  change (trace (drawn w)) with (trace w) in E2, E3.
  exists c.
  destruct (0 <? 10000 - dt0)%Z eqn:B;
    [apply Z.ltb_lt in B | apply Z.ltb_ge in B].
  - unfold log. cbn [trace]. rewrite slept_app, attempts_app, length_app.
    cbn [slept attempts List.length]. split; lia.
  - split; lia.
Qed.

Lemma stream_iteration_sleep_budget_witness :
  exists c : nat,
    List.length
      (attempts (trace (snd (stream_iteration 40 (lit "abc") jitter_world))))
    = List.length (attempts (trace jitter_world)) + c /\
    (slept (trace (snd (stream_iteration 40 (lit "abc") jitter_world)))
     = slept (trace jitter_world) + Z.max 10000 (1000 * Z.of_nat c))%Z.
Proof.
  apply (stream_iteration_sleep_budget 40 (lit "abc") jitter_world 4000).
  - now vm_compute.
  - vm_compute. reflexivity.
Defined.

(** X18. A streaming loop that completes [iters] iterations has slept at
    least [iters] times 10 ms: a complete session lasts at least one
    second. *)
Theorem stream_loop_minimum_duration
    (fuel iters : nat) (data : bytes) (w : world) :
  (len data < 2 ^ 32)%N ->
  fst (stream_loop fuel iters data w) = Val StreamCompleted ->
  (slept (trace w) + 10000 * Z.of_nat iters
   <= slept (trace (snd (stream_loop fuel iters data w))))%Z.
Proof.
  intros Hlen. revert w. induction iters as [|iters IH]; intros w.
  - intros _. simpl. lia.
  - rewrite stream_loop_S.
    pose proof (stream_iteration_sleep_budget fuel data w) as B.
    destruct (stream_iteration fuel data w) as [[[dt| |]|e] w1];
      cbn [fst snd] in *; try discriminate.
    intros C. specialize (IH w1 C).
    destruct (B dt Hlen eq_refl) as (c & _ & E). lia.
Qed.

Lemma stream_loop_minimum_duration_witness :
  (slept (trace stepping_world) + 10000 * Z.of_nat 100
   <= slept (trace (snd (stream_loop 20 100 (lit "abc") stepping_world))))%Z.
Proof.
  apply (stream_loop_minimum_duration 20 100 (lit "abc") stepping_world).
  - now vm_compute.
  - vm_compute. reflexivity.
Defined.

(** ** The early return *)

Lemma chunk_loop_return (msg : bytes) :
  forall (fuel j : nat) (dt : Z) (w : world),
    fst (chunk_loop fuel msg j dt w) = Val LoopReturn ->
    exists t chunk e,
      trace (snd (chunk_loop fuel msg j dt w))
      = t ++ [EvSend chunk (Some e)] /\
      (e = BrokenPipeError \/ e = ConnectionAbortedError).
Proof.
  induction fuel as [|fuel IH]; intros j dt w;
    destruct (Nat.lt_ge_cases j (List.length msg)) as [Hlt|Hge];
    try (rewrite chunk_loop_done by assumption; discriminate).
  - rewrite chunk_loop_no_fuel by assumption. discriminate.
  - rewrite chunk_loop_step by assumption. cbv zeta.
    destruct (next_outcome (drawn w)) as [e|] eqn:O.
    + destruct e; try discriminate; intros _; cbn [snd]; unfold sent;
        rewrite O; cbn [trace]; eexists _, _, _;
        (split; [reflexivity | auto]).
    + apply IH.
Qed.

(** X19. The early return is immediate: when the streaming loop ends
    through an [except] clause, the last thing the handler did is the
    [sendall] that raised [BrokenPipeError] or [ConnectionAbortedError];
    it neither sleeps nor writes after it. *)
Theorem stream_loop_abort_is_last
    (fuel iters : nat) (data : bytes) (w : world) :
  (len data < 2 ^ 32)%N ->
  fst (stream_loop fuel iters data w) = Val WriteAborted ->
  exists t chunk e,
    trace (snd (stream_loop fuel iters data w))
    = t ++ [EvSend chunk (Some e)] /\
    (e = BrokenPipeError \/ e = ConnectionAbortedError).
Proof.
  intros Hlen. revert w. induction iters as [|iters IH]; intros w.
  - discriminate.
  - rewrite stream_loop_S, (stream_iteration_run fuel data w Hlen).
    cbv zeta.
    match goal with
    | |- context [chunk_loop fuel ?m 0 ?d (drawn w)] =>
        pose proof (chunk_loop_return m fuel 0 d (drawn w)) as R;
        destruct (chunk_loop fuel m 0 d (drawn w)) as [[[dt| |]|e] w']
    end; cbn [fst snd] in *; try discriminate.
    + apply IH.
    + intros _. now apply R.
Qed.

Lemma stream_loop_abort_is_last_witness :
  exists t chunk e,
    trace (snd (stream_loop 30 100 (lit "abc")
                  (mkWorld [] [None; None; Some ConnectionAbortedError]
                     (fun i => 5 * i + 1) 0 [])))
    = t ++ [EvSend chunk (Some e)] /\
    (e = BrokenPipeError \/ e = ConnectionAbortedError).
Proof.
  apply (stream_loop_abort_is_last 30 100 (lit "abc")
           (mkWorld [] [None; None; Some ConnectionAbortedError]
              (fun i => 5 * i + 1) 0 [])).
  - now vm_compute.
  - vm_compute. reflexivity.
Defined.

(** ** Data services ignore the channel list *)

Lemma outputs_app (t1 t2 : list event) :
  outputs (t1 ++ t2) = outputs t1 ++ outputs t2.
Proof. apply filter_app. Qed.

Lemma wire_outputs (t : list event) : wire (outputs t) = wire t.
Proof.
  induction t as [|[d [e|]|n g|z] t IH]; simpl; rewrite ?IH; reflexivity.
Qed.

Lemma input_blind_ret {A} (a : A) : input_blind (ret a).
Proof. intros w1 w2 H. now split. Qed.

Lemma input_blind_lift {A} (r : res A) : input_blind (lift r).
Proof. intros w1 w2 H. now split. Qed.

Lemma input_blind_bind {A B} (m : M A) (f : A -> M B) :
  input_blind m -> (forall a, input_blind (f a)) -> input_blind (bind m f).
Proof.
  intros Hm Hf w1 w2 H. unfold bind. destruct (Hm w1 w2 H) as [E R].
  destruct (m w1) as [[a1|e1] v1], (m w2) as [[a2|e2] v2];
    cbn [fst snd] in *; try discriminate.
  - injection E as <-. now apply Hf.
  - injection E as <-. split; [reflexivity | exact R].
Qed.

Lemma input_blind_try_send {A} (m : M A) :
  input_blind m -> input_blind (try_send m).
Proof.
  intros Hm w1 w2 H. unfold try_send. destruct (Hm w1 w2 H) as [E R].
  destruct (m w1) as [[a1|e1] v1], (m w2) as [[a2|e2] v2];
    cbn [fst snd] in *; try discriminate.
  - injection E as <-. split; [reflexivity | exact R].
  - injection E as <-. destruct e1; (split; [reflexivity | exact R]).
Qed.

Lemma input_blind_sendall (d : bytes) : input_blind (sendall d).
Proof.
  intros w1 w2 (S & R & D & O). rewrite !sendall_run.
  unfold same_but_input, sent, next_outcome. cbn [fst snd].
  cbn [send_script rng draws trace]. rewrite !outputs_app, S, O.
  repeat split; auto.
Qed.

Lemma input_blind_sleep (z : Z) : input_blind (sleep z).
Proof.
  intros w1 w2 (S & R & D & O).
  unfold same_but_input, sleep, log. cbn [fst snd].
  cbn [send_script rng draws trace]. rewrite !outputs_app, O.
  repeat split; auto.
Qed.

Lemma input_blind_randint (a b : nat) : input_blind (randint a b).
Proof.
  intros w1 w2 (S & R & D & O).
  unfold same_but_input, randint. cbn [fst snd].
  cbn [send_script rng draws trace]. rewrite R, D.
  repeat split; auto.
Qed.

Lemma input_blind_write_message (d : bytes) :
  input_blind (write_message d).
Proof.
  unfold write_message. apply input_blind_bind.
  - apply input_blind_try_send, input_blind_bind;
      [apply input_blind_lift | intros; apply input_blind_sendall].
  - intros [|]; apply input_blind_ret.
Qed.

Lemma input_blind_chunk_loop (msg : bytes) :
  forall (fuel j : nat) (dt : Z), input_blind (chunk_loop fuel msg j dt).
Proof.
  induction fuel as [|fuel IH]; intros j dt; cbn [chunk_loop];
    destruct (j <? List.length msg); try apply input_blind_ret.
  apply input_blind_bind; [apply input_blind_randint|]. intros n.
  apply input_blind_bind;
    [apply input_blind_try_send, input_blind_sendall|].
  intros [u|e]; [|apply input_blind_ret].
  apply input_blind_bind; [apply input_blind_sleep|]. intros _.
  apply IH.
Qed.

Lemma input_blind_stream_loop (fuel : nat) (data : bytes) :
  forall iters : nat, input_blind (stream_loop fuel iters data).
Proof.
  induction iters as [|iters IH]; cbn [stream_loop];
    [apply input_blind_ret|].
  apply input_blind_bind.
  - unfold stream_iteration.
    apply input_blind_bind; [apply input_blind_lift|]. intros m.
    apply input_blind_bind; [apply input_blind_randint|]. intros k.
    apply input_blind_bind; [apply input_blind_chunk_loop|].
    intros [dt| |]; try apply input_blind_ret.
    apply input_blind_bind; [|intros; apply input_blind_ret].
    destruct (0 <? 10000 - dt)%Z;
      [apply input_blind_sleep | apply input_blind_ret].
  - intros [dt| |]; [apply IH | apply input_blind_ret..].
Qed.

(** Reading changes nothing but the input and the list of reads. *)
Lemma recv_same (n : nat) (w : world) :
  same_but_input (snd (recv n w)) w.
Proof.
  unfold recv, same_but_input, log.
  destruct (inbox w); cbn [snd send_script rng draws trace];
    rewrite outputs_app; simpl; rewrite app_nil_r; auto.
Qed.

Lemma same_but_input_trans (w1 w2 w3 : world) :
  same_but_input w1 w2 -> same_but_input w2 w3 -> same_but_input w1 w3.
Proof.
  intros (S & R & D & O) (S' & R' & D' & O').
  repeat split; congruence.
Qed.

Lemma same_but_input_sym (w1 w2 : world) :
  same_but_input w1 w2 -> same_but_input w2 w1.
Proof. intros (S & R & D & O). repeat split; congruence. Qed.

Lemma read_message_same (w : world) :
  same_but_input (snd (read_message w)) w.
Proof.
  unfold read_message, bind.
  pose proof (recv_same 4 w) as R1. pose proof (recv_value 4 w) as [hd V1].
  destruct (recv 4 w) as [r1 w1]. cbn [fst snd] in *. subst r1.
  destruct (negb (List.length hd =? 4)); [exact R1|].
  destruct ((Struct.unpack_I_be hd <=? 0)
            || (65535 <? Struct.unpack_I_be hd))%N; [exact R1|].
  pose proof (recv_same (N.to_nat (Struct.unpack_I_be hd)) w1) as R2.
  pose proof (recv_value (N.to_nat (Struct.unpack_I_be hd)) w1) as [m V2].
  destruct (recv (N.to_nat (Struct.unpack_I_be hd)) w1) as [r2 w2].
  cbn [fst snd] in *. subst r2.
  destruct (negb (len m =? Struct.unpack_I_be hd)%N); cbn [snd];
    exact (same_but_input_trans _ _ _ R2 R1).
Qed.

(** A read whose result the continuation does not use. *)
Lemma input_blind_after_read {B} (k : M B) :
  input_blind k -> input_blind (bind read_message (fun _ => k)).
Proof.
  intros Hk w1 w2 H. unfold bind.
  pose proof (read_message_same w1) as R1.
  pose proof (read_message_same w2) as R2.
  pose proof (read_message_quiet w1) as ([m1 V1] & _).
  pose proof (read_message_quiet w2) as ([m2 V2] & _).
  destruct (read_message w1) as [r1 v1], (read_message w2) as [r2 v2].
  cbn [fst snd] in *. subst r1 r2. apply Hk.
  eapply same_but_input_trans; [exact R1|].
  eapply same_but_input_trans; [exact H|].
  now apply same_but_input_sym.
Qed.

(** X20. The data services do not look at what the client sends: with the
    same random draws and the same write outcomes, a session on one of the
    five data-service ports ends the same way and performs the same writes
    and sleeps whatever input is pending, channel list or none; in
    particular the bytes on the wire are the same. *)
Theorem data_service_ignores_input
    (native : Struct.byte_order) (file : source_file) (fuel : nat)
    (port : N) (segments : list bytes) (w : world) :
  production port ->
  fst (handle native file fuel port (with_inbox segments w))
  = fst (handle native file fuel port w) /\
  outputs (trace (snd (handle native file fuel port (with_inbox segments w))))
  = outputs (trace (snd (handle native file fuel port w))) /\
  wire (trace (snd (handle native file fuel port (with_inbox segments w))))
  = wire (trace (snd (handle native file fuel port w))).
Proof.
  intros Hport.
  assert (B : input_blind (handle native file fuel port)).
  { unfold production in Hport. simpl in Hport.
    destruct Hport as [<-|[<-|[<-|[<-|[<-|[]]]]]]; unfold handle;
      cbn [service canned N.eqb Pos.eqb];
      (apply input_blind_bind; [apply input_blind_write_message|]);
      intros _;
      try (apply input_blind_after_read);
      try (apply input_blind_bind; [apply input_blind_ret|]; intros _);
      (apply input_blind_bind; [apply input_blind_write_message|]);
      intros _; apply input_blind_stream_loop. }
  destruct (B (with_inbox segments w) w) as (E & _ & _ & _ & O).
  { unfold same_but_input, with_inbox. simpl. auto. }
  split; [exact E|]. split; [exact O|].
  rewrite <- wire_outputs, O. apply wire_outputs.
Qed.

Lemma data_service_ignores_input_witness :
  fst (handle Struct.LittleEndian MockSdkServer 30 32076
         (with_inbox [frame (lit "Lq,Gq")] jitter_world))
  = fst (handle Struct.LittleEndian MockSdkServer 30 32076 jitter_world) /\
  outputs (trace (snd (handle Struct.LittleEndian MockSdkServer 30 32076
                         (with_inbox [frame (lit "Lq,Gq")] jitter_world))))
  = outputs (trace (snd (handle Struct.LittleEndian MockSdkServer 30 32076
                           jitter_world))) /\
  wire (trace (snd (handle Struct.LittleEndian MockSdkServer 30 32076
                      (with_inbox [frame (lit "Lq,Gq")] jitter_world))))
  = wire (trace (snd (handle Struct.LittleEndian MockSdkServer 30 32076
                        jitter_world))).
Proof.
  apply (data_service_ignores_input Struct.LittleEndian MockSdkServer 30
           32076 [frame (lit "Lq,Gq")] jitter_world).
  unfold production. simpl. auto 10.
Defined.

(** X21. The identity tells the services apart: two data-service ports
    announcing the same name are the same port, and none of them announces
    the name [test] of the diagnostic service. *)
Theorem service_names_distinct (p q : N) :
  production p -> production q ->
  (fst (service p) = fst (service q) -> p = q) /\
  fst (service p) <> lit "test".
Proof.
  unfold production. simpl.
  intros [<-|[<-|[<-|[<-|[<-|[]]]]]] [<-|[<-|[<-|[<-|[<-|[]]]]]];
    (split; [intros E; (reflexivity || discriminate E) | discriminate]).
Qed.

Lemma service_names_distinct_witness :
  (fst (service 32077) = fst (service 32079) -> 32077%N = 32079%N) /\
  fst (service 32077) <> lit "test".
Proof.
  apply (service_names_distinct 32077 32079);
    unfold production; simpl; auto 10.
Defined.
